(** * Quartz Code music player: the playback controller of [src/code.py]

    A shallow embedding of the [QuartzPlayer] class: its playlist
    operations, the playback state machine, the seek handler and the
    refresh loop, followed by the properties the specification states
    about them.

    Modelling choices.
    - Python [float] is IEEE 754 binary64, and so is Rocq's primitive
      [float]: durations and positions are computed with the very
      operations the interpreter performs.
    - Python [int] is [Z]; [str] is [string]; [list] is [list]; [None]
      as an optional value is [option].
    - [self] is the record [player].  A handler is a function from the
      player before the call to the player after it.  A handler that can
      raise returns a [result].
    - What the class asks of pygame, mutagen, [random], Tk variables and
      the file system is read from an [env] record, one per handler
      call; the calls it issues to [pygame.mixer.music] are appended to
      the [transport] log of the player, oldest first.
    - Widgets are kept as the last value handed to them ([curr_lbl],
      [total_lbl], [slider], [play_btn]).  The list box and the album
      art are no fields of the player: the selected row is an argument
      of the handlers that read it, and the modules [View] and [Art]
      model the rows and the cover apart.  The title and path labels are
      left out: no handler reads them back.
    - [playlist.json] holds a JSON value, whatever it is: [load_playlist]
      is modelled on every value [json.load] can return.  A value that
      is not a string can only get into [self.playlist] from a file that
      was not written by the application; the player keeps a list of
      strings, [load_playlist] hands such a value back beside it, and
      the runs of the application, which start without the file, never
      meet one. *)

From Stdlib Require Import List String Ascii ZArith Bool Lia.
From Stdlib Require Import Floats Uint63 DecimalString.
Import ListNotations.

Set Implicit Arguments.
Local Open Scope string_scope.
Local Open Scope list_scope.
Local Open Scope Z_scope.

(** ** Python values *)

Module Py.

(** [len(l)] *)
Definition len {A : Type} (l : list A) : Z := Z.of_nat (Datatypes.length l).

(** Truth value of a float: [bool(x)] is [x != 0.0]. *)
Definition truthy (x : float) : bool := negb (PrimFloat.eqb x 0%float).

(** [x or 0.0] *)
Definition or_zero (x : float) : float := if truthy x then x else 0%float.

(** [x and x > 0] read as a condition. *)
Definition positive (x : float) : bool := truthy x && PrimFloat.ltb 0%float x.

(** [int(x)] for a float: truncation toward zero; [None] stands for the
    [ValueError] (nan) or [OverflowError] (infinity) it raises. *)
Definition int_of_float (x : float) : option Z :=
  match Prim2SF x with
  | S754_zero _ => Some 0
  | S754_finite s m e =>
      let a := match e with
               | Z0 => Zpos m
               | Zpos p => Z.shiftl (Zpos m) (Zpos p)
               | Zneg p => Z.shiftr (Zpos m) (Zpos p)
               end in
      Some (if s then - a else a)
  | S754_infinity _ | S754_nan => None
  end.

(** The float an [int] becomes in [n / 1000.0], for an [int] below 2^63
    in size ([get_pos] returns a C [int]). *)
Definition float_of_int (z : Z) : float :=
  if z <? 0 then PrimFloat.opp (PrimFloat.of_uint63 (Uint63.of_Z (- z)))
  else PrimFloat.of_uint63 (Uint63.of_Z z).

(** [f"{z:02d}"] *)
Definition fmt_02d (z : Z) : string :=
  let d := NilZero.string_of_int (Z.to_int z) in
  if (String.length d <? 2)%nat then ("0" ++ d)%string else d.

(** [l[i]], with Python's negative indices; [None] is [IndexError]. *)
Definition getitem {A : Type} (l : list A) (i : Z) : option A :=
  let j := if i <? 0 then i + len l else i in
  if (j <? 0) || (len l <=? j) then None else nth_error l (Z.to_nat j).

(** [l.pop(i)]: the list without its [i]-th entry; [None] is
    [IndexError]. *)
Definition pop {A : Type} (l : list A) (i : Z) : option (list A) :=
  let j := if i <? 0 then i + len l else i in
  if (j <? 0) || (len l <=? j) then None
  else Some (firstn (Z.to_nat j) l ++ skipn (Z.to_nat (j + 1)) l).

(** [p in l] for strings *)
Definition mem (p : string) (l : list string) : bool :=
  existsb (String.eqb p) l.

(** What a call returns, as far as this program goes. *)
Inductive value : Type :=
| None_
| Bool (b : bool).

Inductive exn : Type :=
| TypeError
| IndexError.

End Py.

(** ** Helpers *)

(** [format_time(sec)]: [int(sec)], then minutes and seconds, two digits
    each; ["00:00"] when the conversion raises. *)
Definition format_time_int (sec : Z) : string :=
  (Py.fmt_02d (sec / 60) ++ ":" ++ Py.fmt_02d (sec mod 60))%string.

Definition format_time (sec : float) : string :=
  match Py.int_of_float sec with
  | Some n => format_time_int n
  | None => "00:00"
  end.

(** ** The player *)

Inductive repeat_mode : Type :=
| off
| all
| one.

(** Calls to [pygame.mixer.music], as issued. *)
Inductive call : Type :=
| Load (path : string)
| Play (start : option float)
| Pause
| Unpause
| Stop
| SetVolume (v : float).

(** The two texts of the play button. *)
Inductive glyph : Type :=
| PlayGlyph
| PauseGlyph.

Inductive dialog : Type :=
| ShowInfo (title : string)
| ShowWarning (title : string)
| ShowError (title : string).

Record player : Type := mkPlayer {
  playlist : list string;            (* self.playlist *)
  idx : option Z;                    (* self.idx *)
  playing : bool;
  paused : bool;
  length : float;                    (* self.length *)
  shuffle : bool;
  repeat : repeat_mode;              (* "off" / "all" / "one" *)
  _manual_seek_pos : option float;
  curr_lbl : string;                 (* text of the elapsed-time label *)
  total_lbl : string;
  slider : float;                    (* last value given to slider.set *)
  play_btn : glyph;
  transport : list call;             (* calls to the mixer, oldest first *)
  dialogs : list dialog              (* message boxes shown, oldest first *)
}.

(** What a handler reads from outside the class during one call. *)
Record env : Type := mkEnv {
  music_load : string -> bool;       (* pygame.mixer.music.load succeeds *)
  get_length_fallback : string -> float;
  randrange : Z -> Z;                (* the draw of random.randrange(n) *)
  vol_var : float;                   (* self.vol_var.get() *)
  get_pos : Z;                       (* pygame.mixer.music.get_pos(), ms *)
  basename : string -> string;       (* os.path.basename *)
  can_write : bool;                  (* playlist.json can be written *)
  can_read : bool                    (* playlist.json can be read and parsed *)
}.

(** [QuartzPlayer.__init__] *)
Definition init : player :=
  {| playlist := []; idx := None; playing := false; paused := false;
     length := 0%float; shuffle := false; repeat := off;
     _manual_seek_pos := None;
     curr_lbl := "00:00"; total_lbl := "/ 00:00"; slider := 0%float;
     play_btn := PlayGlyph; transport := []; dialogs := [] |}.

Inductive result : Type :=
| Ok (s : player)
| Raise (e : Py.exn) (s : player).

(** The player a handler leaves behind, whether it returned or raised
    (Tk reports the exception of a callback and carries on). *)
Definition after (r : result) : player :=
  match r with
  | Ok s => s
  | Raise _ s => s
  end.

Section Setters.
Variable s : player.

Definition set_playlist (v : list string) : player :=
  mkPlayer v (idx s) (playing s) (paused s) (length s) (shuffle s) (repeat s)
    (_manual_seek_pos s) (curr_lbl s) (total_lbl s) (slider s) (play_btn s)
    (transport s) (dialogs s).
Definition set_idx (v : option Z) : player :=
  mkPlayer (playlist s) v (playing s) (paused s) (length s) (shuffle s) (repeat s)
    (_manual_seek_pos s) (curr_lbl s) (total_lbl s) (slider s) (play_btn s)
    (transport s) (dialogs s).
Definition set_playing (v : bool) : player :=
  mkPlayer (playlist s) (idx s) v (paused s) (length s) (shuffle s) (repeat s)
    (_manual_seek_pos s) (curr_lbl s) (total_lbl s) (slider s) (play_btn s)
    (transport s) (dialogs s).
Definition set_paused (v : bool) : player :=
  mkPlayer (playlist s) (idx s) (playing s) v (length s) (shuffle s) (repeat s)
    (_manual_seek_pos s) (curr_lbl s) (total_lbl s) (slider s) (play_btn s)
    (transport s) (dialogs s).
Definition set_length (v : float) : player :=
  mkPlayer (playlist s) (idx s) (playing s) (paused s) v (shuffle s) (repeat s)
    (_manual_seek_pos s) (curr_lbl s) (total_lbl s) (slider s) (play_btn s)
    (transport s) (dialogs s).
Definition set_shuffle (v : bool) : player :=
  mkPlayer (playlist s) (idx s) (playing s) (paused s) (length s) v (repeat s)
    (_manual_seek_pos s) (curr_lbl s) (total_lbl s) (slider s) (play_btn s)
    (transport s) (dialogs s).
Definition set_repeat (v : repeat_mode) : player :=
  mkPlayer (playlist s) (idx s) (playing s) (paused s) (length s) (shuffle s) v
    (_manual_seek_pos s) (curr_lbl s) (total_lbl s) (slider s) (play_btn s)
    (transport s) (dialogs s).
Definition set_manual_seek_pos (v : option float) : player :=
  mkPlayer (playlist s) (idx s) (playing s) (paused s) (length s) (shuffle s) (repeat s)
    v (curr_lbl s) (total_lbl s) (slider s) (play_btn s)
    (transport s) (dialogs s).
Definition set_curr_lbl (v : string) : player :=
  mkPlayer (playlist s) (idx s) (playing s) (paused s) (length s) (shuffle s) (repeat s)
    (_manual_seek_pos s) v (total_lbl s) (slider s) (play_btn s)
    (transport s) (dialogs s).
Definition set_total_lbl (v : string) : player :=
  mkPlayer (playlist s) (idx s) (playing s) (paused s) (length s) (shuffle s) (repeat s)
    (_manual_seek_pos s) (curr_lbl s) v (slider s) (play_btn s)
    (transport s) (dialogs s).
Definition set_slider (v : float) : player :=
  mkPlayer (playlist s) (idx s) (playing s) (paused s) (length s) (shuffle s) (repeat s)
    (_manual_seek_pos s) (curr_lbl s) (total_lbl s) v (play_btn s)
    (transport s) (dialogs s).
Definition set_play_btn (v : glyph) : player :=
  mkPlayer (playlist s) (idx s) (playing s) (paused s) (length s) (shuffle s) (repeat s)
    (_manual_seek_pos s) (curr_lbl s) (total_lbl s) (slider s) v
    (transport s) (dialogs s).
(** One more call to the mixer. *)
Definition mixer (c : call) : player :=
  mkPlayer (playlist s) (idx s) (playing s) (paused s) (length s) (shuffle s) (repeat s)
    (_manual_seek_pos s) (curr_lbl s) (total_lbl s) (slider s) (play_btn s)
    (transport s ++ [c]) (dialogs s).
(** One more message box. *)
Definition messagebox (d : dialog) : player :=
  mkPlayer (playlist s) (idx s) (playing s) (paused s) (length s) (shuffle s) (repeat s)
    (_manual_seek_pos s) (curr_lbl s) (total_lbl s) (slider s) (play_btn s)
    (transport s) (dialogs s ++ [d]).
End Setters.

(** ** Playlist operations *)

(** The loop of [_add_paths]: the playlist and the [added] flag after the
    paths have been gone through. *)
Fixpoint _add_paths_loop (paths pl : list string) (added : bool)
  : list string * bool :=
  match paths with
  | [] => (pl, added)
  | p :: rest =>
      if negb (p =? "")%string && negb (Py.mem p pl)
      then _add_paths_loop rest (pl ++ [p]) true
      else _add_paths_loop rest pl added
  end.

(** [_add_paths(paths)].  The method has no [return]: the call evaluates
    to [None], and [added] only decides whether the index is set. *)
Definition _add_paths (paths : list string) (s : player) : Py.value * player :=
  let '(pl, added) := _add_paths_loop paths (playlist s) false in
  let s1 := set_playlist s pl in
  (Py.None_,
   if added && (match idx s1 with None => true | Some _ => false end)
   then set_idx s1 (Some 0)
   else s1).

(** [stop_song()] *)
Definition stop_song (s : player) : player :=
  let s := mixer s Stop in
  let s := set_playing s false in
  let s := set_paused s false in
  let s := set_play_btn s PlayGlyph in
  let s := set_slider s 0%float in
  set_curr_lbl s "00:00".

(** [self.idx == i] *)
Definition idx_is (s : player) (i : Z) : bool :=
  match idx s with
  | Some k => k =? i
  | None => false
  end.

(** [remove_selected()], [sel] being [self.listbox.curselection()], a
    tuple of row numbers. *)
Definition remove_selected (sel : list nat) (s : player) : result :=
  match sel with
  | [] => Ok s
  | row :: _ =>
      let i := Z.of_nat row in
      match Py.pop (playlist s) i with
      | None => Raise Py.IndexError s
      | Some pl =>
          let s := set_playlist s pl in
          if idx_is s i then Ok (set_idx (stop_song s) None)
          else match idx s with
               | Some k => if i <? k then Ok (set_idx s (Some (k - 1))) else Ok s
               | None => Ok s
               end
      end
  end.

(** [clear_playlist()] *)
Definition clear_playlist (s : player) : player :=
  let s := set_playlist s [] in
  let s := set_idx s None in
  stop_song s.

(** What [json.load] returns: [None], a [bool], an [int], a [float], a
    [str], a [list] or a [dict] (its keys in the order of the file). *)
#[warnings="-register-all"] Inductive json : Type :=
| JNull
| JBool (b : bool)
| JInt (z : Z)
| JFloat (x : float)
| JStr (s : string)
| JArr (items : list json)
| JObj (members : list (string * json)).

(** [bool(v)] *)
Definition json_truthy (v : json) : bool :=
  match v with
  | JNull => false
  | JBool b => b
  | JInt z => negb (z =? 0)
  | JFloat x => Py.truthy x
  | JStr s => negb (s =? "")%string
  | JArr items => match items with [] => false | _ :: _ => true end
  | JObj members => match members with [] => false | _ :: _ => true end
  end.

(** The values [for p in v] goes through: the elements of a list, the
    keys of a dict, the characters of a string; [None] where the loop
    raises [TypeError], the value not being iterable. *)
Definition json_iter (v : json) : option (list json) :=
  match v with
  | JArr items => Some items
  | JObj members => Some (map (fun kv => JStr (fst kv)) members)
  | JStr s => Some (map (fun c => JStr (String c "")) (list_ascii_of_string s))
  | JNull | JBool _ | JInt _ | JFloat _ => None
  end.

(** The content of [playlist.json]: absent, or the value [json.load]
    reads from it. *)
Definition file : Type := option json.

(** What [json.dump] writes for a playlist, as [json.load] reads it back:
    the array of its paths. *)
Definition dumped (pl : list string) : json := JArr (map JStr pl).

(** [save_playlist()] *)
Definition save_playlist (e : env) (s : player) (f : file) : player * file :=
  if can_write e
  then (messagebox s (ShowInfo "Saved"), Some (dumped (playlist s)))
  else (messagebox s (ShowError "Error"), f).

(** The loop of [_add_paths] over values that need not be strings, as
    [load_playlist] passes them: the playlist, the [added] flag and, when
    the loop was left by an exception, the value it stopped at.  A value
    that is not a string and is truthy passes the test
    [p and p not in self.playlist], since no entry of the playlist, a
    string, equals it; it is appended to [self.playlist], and
    [os.path.basename(p)] then raises [TypeError]. *)
Fixpoint _add_values_loop (items : list json) (pl : list string) (added : bool)
  : list string * bool * option json :=
  match items with
  | [] => (pl, added, None)
  | JStr p :: rest =>
      if negb (p =? "")%string && negb (Py.mem p pl)
      then _add_values_loop rest (pl ++ [p]) true
      else _add_values_loop rest pl added
  | v :: rest =>
      if json_truthy v then (pl, added, Some v)
      else _add_values_loop rest pl added
  end.

(** How a call of [_add_paths] on a loaded value ends. *)
Inductive added_values : Type :=
| Returned (s : player)
    (* the call returned *)
| NotIterable (s : player)
    (* [for p in paths] raised [TypeError] *)
| Stray (s : player) (v : json).
    (* [os.path.basename(v)] raised [TypeError]: [self.playlist] is the
       playlist of [s] followed by [v], which is not a string *)

(** [_add_paths(data)], [data] being what [json.load] returned.  The
    index is set after the loop, so not when the loop raises. *)
Definition _add_values (data : json) (s : player) : added_values :=
  match json_iter data with
  | None => NotIterable s
  | Some items =>
      let '(pl, added, stray) := _add_values_loop items (playlist s) false in
      let s1 := set_playlist s pl in
      match stray with
      | Some v => Stray s1 v
      | None =>
          Returned
            (if added && (match idx s1 with None => true | Some _ => false end)
             then set_idx s1 (Some 0)
             else s1)
      end
  end.

(** [load_playlist()]: the player, and the value that is not a string
    which the call has left at the end of [self.playlist], behind the
    entries of the player, if it has.  [clear_playlist] has run when
    [_add_paths] raises, and the [except] clause shows the error. *)
Definition load_playlist (e : env) (s : player) (f : file)
  : player * option json :=
  match f with
  | None => (messagebox s (ShowWarning "Not found"), None)
  | Some data =>
      if can_read e
      then
        match _add_values data (clear_playlist s) with
        | Returned s => (messagebox s (ShowInfo "Loaded"), None)
        | NotIterable s => (messagebox s (ShowError "Error"), None)
        | Stray s v => (messagebox s (ShowError "Error"), Some v)
        end
      else (messagebox s (ShowError "Error"), None)
  end.

(** ** Playback *)

(** [_load_track(idx)]: whether the track was loaded, and the player. *)
Definition _load_track (e : env) (i : option Z) (s : player) : bool * player :=
  match i with
  | None => (false, s)
  | Some i =>
      if (i <? 0) || (Py.len (playlist s) <=? i) then (false, s)
      else
        match Py.getitem (playlist s) i with
        | None => (false, s)
        | Some path =>
            let s := mixer s (Load path) in
            if music_load e path then
              let s := set_length s (Py.or_zero (get_length_fallback e path)) in
              let s :=
                if Py.positive (length s)
                then set_total_lbl s ("/ " ++ format_time (length s))%string
                else set_total_lbl s "/ 00:00" in
              (true, set_slider s 0%float)
            else (false, messagebox s (ShowError "Load Error"))
        end
  end.

(** [start_playback()] *)
Definition start_playback (e : env) (s : player) : player :=
  match idx s with
  | None => s
  | Some _ =>
      let '(ok, s) := _load_track e (idx s) s in
      if negb ok then s
      else
        let s := mixer s (Play None) in
        let s := mixer s (SetVolume (vol_var e)) in
        let s := set_playing s true in
        let s := set_paused s false in
        set_play_btn s PauseGlyph
  end.

(** The first [i] with [test(l[i])], as the [for ... enumerate ... break]
    of [play_selected] finds it, counting from [i0]. *)
Fixpoint first_index (test : string -> bool) (l : list string) (i0 : Z)
  : option Z :=
  match l with
  | [] => None
  | p :: r => if test p then Some i0 else first_index test r (i0 + 1)
  end.

(** [play_selected()], [name] being the text of the selected row of the
    list box, if a row is selected. *)
Definition play_selected (e : env) (name : option string) (s : player) : player :=
  let s :=
    match name with
    | Some n =>
        match first_index (fun p => (basename e p =? n)%string) (playlist s) 0 with
        | Some i => set_idx s (Some i)
        | None => s
        end
    | None =>
        match idx s, playlist s with
        | None, _ :: _ => set_idx s (Some 0)
        | _, _ => s
        end
    end in
  start_playback e s.

(** [play_pause()] *)
Definition play_pause (e : env) (s : player) : player :=
  match playlist s with
  | [] => s
  | _ :: _ =>
      if negb (playing s) then
        let s := match idx s with
                 | None => set_idx s (Some 0)
                 | Some _ => s
                 end in
        start_playback e s
      else if paused s then
        set_play_btn (set_paused (mixer s Unpause) false) PauseGlyph
      else
        set_play_btn (set_paused (mixer s Pause) true) PlayGlyph
  end.

(** [next_song()] *)
Definition next_song (e : env) (s : player) : player :=
  match playlist s with
  | [] => s
  | _ :: _ =>
      if shuffle s then
        let n := Py.len (playlist s) in
        start_playback e (set_idx s (Some (randrange e n mod n)))
      else
        match idx s with
        | None => start_playback e (set_idx s (Some 0))
        | Some i =>
            let s := set_idx s (Some (i + 1)) in
            if Py.len (playlist s) <=? i + 1 then
              match repeat s with
              | all => start_playback e (set_idx s (Some 0))
              | _ => stop_song s
              end
            else start_playback e s
        end
  end.

(** [self.idx or 0] *)
Definition idx_or_0 (s : player) : Z :=
  match idx s with
  | Some k => k
  | None => 0
  end.

(** [prev_song()].  Under repeat-all the subtraction is applied to
    [self.idx] as it is, and [None - 1] raises [TypeError] before the
    assignment. *)
Definition prev_song (e : env) (s : player) : result :=
  match playlist s with
  | [] => Ok s
  | _ :: _ =>
      match repeat s with
      | all =>
          match idx s with
          | None => Raise Py.TypeError s
          | Some i =>
              Ok (start_playback e
                    (set_idx s (Some ((i - 1) mod Py.len (playlist s)))))
          end
      | _ => Ok (start_playback e (set_idx s (Some (Z.max 0 (idx_or_0 s - 1)))))
      end
  end.

(** ** Seek *)

(** [_on_seek(val)], [val] being the slider's percentage.  The guard
    looks at [self.playing] alone.  [self.playlist[self.idx]] is Python's
    indexing: an index below [-len] raises. *)
Definition _on_seek (e : env) (val : float) (s : player) : result :=
  if negb (playing s) then Ok s
  else
    match idx s with
    | None => Ok s
    | Some i =>
        if Py.len (playlist s) <=? i then Ok s
        else
          match Py.getitem (playlist s) i with
          | None => Raise Py.IndexError s
          | Some path =>
              let len_ := if Py.positive (length s) then length s
                          else get_length_fallback e path in
              let sec := if Py.positive len_
                         then ((val / 100) * len_)%float
                         else val in
              let s := mixer s (Play (Some sec)) in
              let new_len := get_length_fallback e path in
              let s :=
                if Py.positive new_len
                then set_total_lbl (set_length s new_len)
                       ("/ " ++ format_time new_len)%string
                else s in
              let s := set_curr_lbl s (format_time sec) in
              let s :=
                if Py.positive (length s)
                then set_slider s ((sec / length s) * 100)%float
                else set_slider s val in
              Ok (set_manual_seek_pos s (Some sec))
          end
    end.

(** ** Misc *)

(** [set_volume()] *)
Definition set_volume (e : env) (s : player) : player :=
  mixer s (SetVolume (vol_var e)).

(** [toggle_shuffle()] *)
Definition toggle_shuffle (s : player) : player :=
  set_shuffle s (negb (shuffle s)).

(** [cycle_repeat()] *)
Definition cycle_repeat (s : player) : player :=
  match repeat s with
  | off => set_repeat s all
  | all => set_repeat s one
  | one => set_repeat s off
  end.

(** ** Update loop *)

(** The position a tick works with: the pending manual position if there
    is one, else what the mixer reports, in seconds. *)
Definition tick_pos (e : env) (s : player) : float :=
  match _manual_seek_pos s with
  | Some p => p
  | None => (Py.float_of_int (get_pos e) / 1000)%float
  end.

(** [if pos < 0: pos = 0] *)
Definition clamp0 (pos : float) : float :=
  if PrimFloat.ltb pos 0%float then 0%float else pos.

(** [self.length and pos >= self.length - 0.4] *)
Definition track_ended (s : player) (pos : float) : bool :=
  Py.truthy (length s) && PrimFloat.leb (length s - 0x1.999999999999ap-2)%float pos.

(** One run of [_update_loop()] (the call that schedules the next run
    apart). *)
Definition _update_loop (e : env) (s : player) : player :=
  if playing s && negb (paused s) then
    let pos := clamp0 (tick_pos e s) in
    let s := set_manual_seek_pos s None in
    if track_ended s pos then
      match repeat s with
      | one => mixer s (Play None)
      | _ => next_song e s
      end
    else
      let s := if Py.positive (length s)
               then set_slider s ((pos / length s) * 100)%float
               else s in
      set_curr_lbl s (format_time pos)
  else s.

(** ** The application as a transition system *)

(** What Tk can call, with what the call reads from its widgets. *)
Inductive event : Type :=
| AddPaths (paths : list string)     (* add_files, add_folder *)
| RemoveSelected (sel : list nat)
| ClearPlaylist
| PlaySelected (name : option string)
| SavePlaylist
| LoadPlaylist
| PlayPause
| StopSong
| NextSong
| PrevSong
| Seek (val : float)
| SetVolumeEv
| ToggleShuffle
| CycleRepeat
| Tick.

(** The player together with [playlist.json].  A run starts without the
    file, and [save_playlist] alone writes it: what [load_playlist] reads
    in a run is an array of strings, and it leaves no value that is not
    a string behind (lemma [run_load_leaves_no_stray]). *)
Definition world : Type := (player * file)%type.

Definition step (e : env) (ev : event) (w : world) : world :=
  let '(s, f) := w in
  match ev with
  | AddPaths paths => (snd (_add_paths paths s), f)
  | RemoveSelected sel => (after (remove_selected sel s), f)
  | ClearPlaylist => (clear_playlist s, f)
  | PlaySelected name => (play_selected e name s, f)
  | SavePlaylist => save_playlist e s f
  | LoadPlaylist => (fst (load_playlist e s f), f)
  | PlayPause => (play_pause e s, f)
  | StopSong => (stop_song s, f)
  | NextSong => (next_song e s, f)
  | PrevSong => (after (prev_song e s), f)
  | Seek val => (after (_on_seek e val s), f)
  | SetVolumeEv => (set_volume e s, f)
  | ToggleShuffle => (toggle_shuffle s, f)
  | CycleRepeat => (cycle_repeat s, f)
  | Tick => (_update_loop e s, f)
  end.

(** A run: the events in the order Tk delivers them, each with what the
    outside answers during it. *)
Fixpoint run (tr : list (env * event)) (w : world) : world :=
  match tr with
  | [] => w
  | (e, ev) :: rest => run rest (step e ev w)
  end.

Definition reachable (s : player) : Prop :=
  exists tr f, run tr (init, None) = (s, f).

(** The playlist operations alone. *)
Inductive playlist_op : Type :=
| Add (paths : list string)
| Remove (sel : list nat).

Definition apply_op (o : playlist_op) (s : player) : player :=
  match o with
  | Add paths => snd (_add_paths paths s)
  | Remove sel => after (remove_selected sel s)
  end.

Definition apply_ops (ops : list playlist_op) (s : player) : player :=
  fold_left (fun s o => apply_op o s) ops s.

(** ** Predicates of the specification *)

(** The three states of the controller. *)
Inductive playback : Type :=
| Stopped
| Playing
| Paused.

Definition playback_of (s : player) : playback :=
  if playing s then (if paused s then Paused else Playing) else Stopped.

(** The current index is absent or points into the playlist. *)
Definition idx_ok (s : player) : Prop :=
  match idx s with
  | None => True
  | Some i => 0 <= i < Py.len (playlist s)
  end.

(** The calls a handler added to the mixer's log. *)
Definition issued (before after_ : player) (cs : list call) : Prop :=
  transport after_ = transport before ++ cs.

(** The fields that loading and starting a track never touch. *)
Definition same_settings (s s' : player) : Prop :=
  playlist s' = playlist s /\ idx s' = idx s /\ shuffle s' = shuffle s /\
  repeat s' = repeat s /\ _manual_seek_pos s' = _manual_seek_pos s /\
  curr_lbl s' = curr_lbl s.

(** The calls issued between two players do not include [Stop]. *)
Definition went_on (s s' : player) : Prop :=
  exists cs, issued s s' cs /\ ~ In Stop cs.

(** The playlist holds distinct paths, none of them empty. *)
Definition playlist_wf (s : player) : Prop :=
  NoDup (playlist s) /\ ~ In "" (playlist s).

(** The current index points at a track; a player with [playing] set
    has such an index. *)
Definition has_track (s : player) : Prop :=
  exists i, idx s = Some i /\ 0 <= i < Py.len (playlist s).

Definition current_ok (s : player) : Prop :=
  playing s = true -> has_track s.

(** A float, as the specification of the primitive floats describes it,
    that does not compare below zero. *)
Definition not_negative (x : spec_float) : Prop :=
  match x with
  | S754_zero _ | S754_nan => True
  | S754_infinity s | S754_finite s _ _ => s = false
  end.

(** What [add] appends, said on lists: the paths that are not empty and
    not in the playlist yet, in input order, each at its first
    occurrence. *)
Definition admissible (pl : list string) (p : string) : bool :=
  negb (p =? "")%string && negb (Py.mem p pl).

Fixpoint first_occ (l : list string) : list string :=
  match l with
  | [] => []
  | p :: r => p :: filter (fun q => negb (q =? p)%string) (first_occ r)
  end.

Definition appended (paths pl : list string) : list string :=
  first_occ (filter (admissible pl) paths).

(** ** Sample data *)

(** An outside where every file loads and lasts 100 seconds. *)
Definition env0 : env :=
  {| music_load := fun _ => true;
     get_length_fallback := fun _ => 100%float;
     randrange := fun _ => 0;
     vol_var := 0x1.b333333333333p-1%float;
     get_pos := 0;
     basename := fun p => p;
     can_write := true;
     can_read := true |}.

(** An outside that reports another position and loads nothing. *)
Definition env1 : env :=
  {| music_load := fun _ => false;
     get_length_fallback := fun _ => 100%float;
     randrange := fun _ => 0;
     vol_var := 1%float;
     get_pos := 7000;
     basename := fun p => p;
     can_write := true;
     can_read := true |}.

(** Two tracks added to a fresh player. *)
Definition two_tracks : player :=
  snd (_add_paths ["a.mp3"; "b.mp3"] init).

(** Two tracks, the second one current and playing. *)
Definition second_current : player :=
  next_song env0 (play_pause env0 two_tracks).

(** One track, playing. *)
Definition one_playing : player :=
  play_pause env0 (snd (_add_paths ["a.mp3"] init)).

(** One track, playing, then paused. *)
Definition one_paused : player := play_pause env0 one_playing.

(** Two tracks added, the first one started and then removed while it
    plays, repeat switched to all. *)
Definition stranded_run : list (env * event) :=
  [(env0, AddPaths ["a.mp3"; "b.mp3"]); (env0, PlayPause);
   (env0, RemoveSelected [0%nat]); (env0, CycleRepeat)].

Definition stranded : player := fst (run stranded_run (init, None)).

(** An outside whose mixer reports 99.7 seconds. *)
Definition near_end : env :=
  {| music_load := fun _ => true;
     get_length_fallback := fun _ => 100%float;
     randrange := fun _ => 0;
     vol_var := 1%float;
     get_pos := 99700;
     basename := fun p => p;
     can_write := true;
     can_read := true |}.

(** The one-track player, playing, in repeat-one. *)
Definition one_repeating : player := cycle_repeat (cycle_repeat one_playing).

(** An outside where files load and their duration cannot be told. *)
Definition env_unknown : env :=
  {| music_load := fun _ => true;
     get_length_fallback := fun _ => 0%float;
     randrange := fun _ => 0;
     vol_var := 1%float;
     get_pos := 99700;
     basename := fun p => p;
     can_write := true;
     can_read := true |}.

(** One track of unknown duration, playing. *)
Definition one_unknown : player :=
  play_pause env_unknown (snd (_add_paths ["a.mp3"] init)).

(** Two tracks, the first one started and then removed. *)
Definition lost_current : player :=
  after (remove_selected [0%nat]
           (play_pause env0 (snd (_add_paths ["a.mp3"; "b.mp3"] init)))).

(** ** More predicates *)

(** A player that is not playing is not paused either. *)
Definition flags_ok (s : player) : Prop :=
  playing s = false -> paused s = false.

(** The current index, when there is one, is not negative. *)
Definition idx_nonneg (s : player) : Prop :=
  forall i, idx s = Some i -> 0 <= i.

(** A player that plays the first of two tracks, 50 seconds sought. *)
Definition sought : player :=
  after (_on_seek env0 50%float (play_pause env0 two_tracks)).

(** [os.path.basename] on paths with [/] as the separator: what follows
    the last [/]. *)
Definition has_slash (p : string) : bool :=
  match index 0 "/" p with
  | Some _ => true
  | None => false
  end.

Fixpoint last_component (p : string) : string :=
  match p with
  | EmptyString => EmptyString
  | String c r => if has_slash (String c r) then last_component r else String c r
  end.

(** An outside with that [basename]. *)
Definition env_dirs : env :=
  {| music_load := fun _ => true;
     get_length_fallback := fun _ => 100%float;
     randrange := fun _ => 0;
     vol_var := 1%float;
     get_pos := 0;
     basename := last_component;
     can_write := true;
     can_read := true |}.

(** Two files of the same name in two folders and a third one, the second
    being current. *)
Definition same_names : player :=
  next_song env_dirs
    (play_pause env_dirs
       (snd (_add_paths ["x/a.mp3"; "y/a.mp3"; "y/b.mp3"] init))).

(** An outside where [playlist.json] cannot be read. *)
Definition env_unreadable : env :=
  {| music_load := fun _ => true;
     get_length_fallback := fun _ => 100%float;
     randrange := fun _ => 0;
     vol_var := 1%float;
     get_pos := 0;
     basename := fun p => p;
     can_write := false;
     can_read := false |}.

(** ** Loaded values *)

(** The strings among loaded values, in their order. *)
Fixpoint strings_of (items : list json) : list string :=
  match items with
  | [] => []
  | JStr p :: rest => p :: strings_of rest
  | _ :: rest => strings_of rest
  end.

(** A value the loop of [_add_paths] gets past: a string, or a value
    that is falsy.  At any other value it raises. *)
Definition passes (v : json) : bool :=
  match v with
  | JStr _ => true
  | _ => negb (json_truthy v)
  end.

(** A player that [load_playlist] has cleared: it is stopped, and keeps
    its settings. *)
Definition cleared (s s' : player) : Prop :=
  playing s' = false /\ paused s' = false /\ issued s s' [Stop] /\
  length s' = length s /\ shuffle s' = shuffle s /\ repeat s' = repeat s /\
  _manual_seek_pos s' = _manual_seek_pos s.

(** A file with a number in it, and a file that holds no array. *)
Definition with_number : json :=
  JArr [JStr "a.mp3"; JNull; JStr ""; JInt 5; JStr "b.mp3"].

Definition no_array : json := JInt 5.

(** ** Durations read from the files *)

Module Probe.

(** What the tag readers of mutagen and [pygame.mixer.Sound] answer for
    a path, [None] standing for an exception, and the extension
    [os.path.splitext(path)[1].lower()]. *)
Record readers : Type := mkReaders {
  ext : string -> string;
  mp3_length : string -> option float;     (* MP3(path).info.length *)
  flac_length : string -> option float;    (* FLAC(path).info.length *)
  mp4_length : string -> option float;     (* MP4(path).info.length *)
  sound_length : string -> option float    (* Sound(path).get_length() *)
}.

(** The reader [get_length] asks, by extension. *)
Definition reader_for (r : readers) (path : string) : option float :=
  let x := ext r path in
  if (x =? ".mp3")%string then mp3_length r path
  else if (x =? ".flac")%string then flac_length r path
  else if (x =? ".mp4")%string || (x =? ".m4a")%string || (x =? ".aac")%string
       then mp4_length r path
  else sound_length r path.

(** [get_length(path)]: 0.0 when the reader raises. *)
Definition get_length (r : readers) (path : string) : float :=
  match reader_for r path with
  | Some l => l
  | None => 0%float
  end.

(** [get_length_fallback(path)] *)
Definition get_length_fallback (r : readers) (path : string) : float :=
  let l := get_length r path in
  if Py.positive l then l
  else match sound_length r path with
       | Some x => x
       | None => 0%float
       end.

(** Readers that know the tags of nothing, and a sound of 12.5 s. *)
Definition broken_tags : readers :=
  {| ext := fun _ => ".mp3";
     mp3_length := fun _ => None;
     flac_length := fun _ => None;
     mp4_length := fun _ => None;
     sound_length := fun _ => Some 12.5%float |}.

End Probe.

(** ** The list box *)

(** The list box beside the playlist: what [_add_paths], [remove_selected],
    [clear_playlist], [play_selected] and [_filter_playlist] do to its
    rows.  A row holds a file name; the selection ([curselection()]) is
    an argument, a tuple of numbers of existing rows. *)
Module View.

Section Rows.

(** [os.path.basename] and [str.lower]. *)
Variables base lower : string -> string.

Record view : Type := mkView {
  app : player;               (* self *)
  rows : list string;         (* the rows of self.listbox *)
  query : string;             (* self.search_var.get().strip().lower() *)
  disk : file                 (* playlist.json *)
}.

(** [q in s] *)
Definition contains (q s : string) : bool :=
  match index 0 q s with
  | Some _ => true
  | None => false
  end.

(** [not q or q in name.lower()], [name] being the file name of [p]. *)
Definition shown (q p : string) : bool :=
  (q =? "")%string || contains q (lower (base p)).

(** [_filter_playlist()] *)
Definition _filter_playlist (v : view) : view :=
  mkView (app v) (map base (filter (shown (query v)) (playlist (app v))))
    (query v) (disk v).

(** The rows after the loop of [_add_paths]: a row is inserted at the end
    for every path that is appended. *)
Fixpoint _add_paths_rows (paths pl rs : list string) : list string :=
  match paths with
  | [] => rs
  | p :: rest =>
      if negb (p =? "")%string && negb (Py.mem p pl)
      then _add_paths_rows rest (pl ++ [p]) (rs ++ [base p])
      else _add_paths_rows rest pl rs
  end.

(** [_add_paths(paths)] *)
Definition _add_paths (paths : list string) (v : view) : view :=
  mkView (snd (_add_paths paths (app v)))
    (_add_paths_rows paths (playlist (app v)) (rows v)) (query v) (disk v).

(** [self.listbox.delete(i)] *)
Definition delete_row (i : nat) (rs : list string) : list string :=
  firstn i rs ++ skipn (S i) rs.

(** [remove_selected()]: the row goes first, then the playlist entry of
    the same number. *)
Definition remove_selected (sel : list nat) (v : view) : view :=
  match sel with
  | [] => v
  | i :: _ =>
      mkView (after (remove_selected sel (app v))) (delete_row i (rows v))
        (query v) (disk v)
  end.

(** [clear_playlist()] *)
Definition clear_playlist (v : view) : view :=
  mkView (clear_playlist (app v)) [] (query v) (disk v).

(** The rows after the loop of [_add_paths] over loaded values: no row
    is inserted for the value the loop stops at. *)
Fixpoint _add_values_rows (items : list json) (pl rs : list string)
  : list string :=
  match items with
  | [] => rs
  | JStr p :: rest =>
      if negb (p =? "")%string && negb (Py.mem p pl)
      then _add_values_rows rest (pl ++ [p]) (rs ++ [base p])
      else _add_values_rows rest pl rs
  | v :: rest =>
      if json_truthy v then rs else _add_values_rows rest pl rs
  end.

(** [load_playlist()]: the rows are deleted by [clear_playlist] once the
    file has been read. *)
Definition load_playlist (e : env) (v : view) : view :=
  let s := fst (load_playlist e (app v) (disk v)) in
  match disk v with
  | None => mkView s (rows v) (query v) (disk v)
  | Some data =>
      if can_read e
      then mkView s
             (match json_iter data with
              | Some items => _add_values_rows items [] []
              | None => []
              end) (query v) (disk v)
      else mkView s (rows v) (query v) (disk v)
  end.

(** [self.listbox.get(sel[0])], when a row is selected. *)
Definition selected_name (sel : list nat) (v : view) : option string :=
  match sel with
  | [] => None
  | i :: _ => Some (nth i (rows v) "")
  end.

(** [play_selected()], the call of [_highlight_current] apart. *)
Definition play_selected (e : env) (sel : list nat) (v : view) : view :=
  mkView (play_selected e (selected_name sel v) (app v)) (rows v) (query v)
    (disk v).

(** The search entry: a key is released with the text [q] in it. *)
Definition search (q : string) (v : view) : view :=
  _filter_playlist (mkView (app v) (rows v) q (disk v)).

(** The handlers that do not touch the list box themselves. *)
Definition playback_only (ev : event) : bool :=
  match ev with
  | AddPaths _ | RemoveSelected _ | ClearPlaylist | PlaySelected _
  | LoadPlaylist => false
  | _ => true
  end.

Definition playback (e : env) (ev : event) (v : view) : view :=
  mkView (fst (step e ev (app v, disk v))) (rows v) (query v)
    (snd (step e ev (app v, disk v))).

(** The selection is made of rows that exist. *)
Definition sel_ok (sel : list nat) (v : view) : Prop :=
  forall i, In i sel -> (i < Datatypes.length (rows v))%nat.

Definition start : view := mkView init [] "" None.

(** One step of the window.  [_highlight_current], which
    [start_playback] calls once a track is loaded, is the step that
    filters again: a run of the application is a run of these steps in
    which that step follows each successful start. *)
Inductive moves : view -> view -> Prop :=
| m_add (paths : list string) (v : view) : moves v (_add_paths paths v)
| m_remove (sel : list nat) (v : view) :
    sel_ok sel v -> moves v (remove_selected sel v)
| m_clear (v : view) : moves v (clear_playlist v)
| m_load (e : env) (v : view) : moves v (load_playlist e v)
| m_play_selected (e : env) (sel : list nat) (v : view) :
    sel_ok sel v -> basename e = base -> moves v (play_selected e sel v)
| m_search (q : string) (v : view) : moves v (search q v)
| m_highlight (v : view) : moves v (_filter_playlist v)
| m_playback (e : env) (ev : event) (v : view) :
    playback_only ev = true -> moves v (playback e ev v).

Inductive reached : view -> Prop :=
| reached_start : reached start
| reached_move (v v' : view) : reached v -> moves v v' -> reached v'.

(** Every row is the file name of the playlist entry of its number. *)
Definition in_step (v : view) : Prop :=
  rows v = map base (playlist (app v)).

(** The list box has no more rows than the playlist has entries. *)
Definition rows_fit (v : view) : Prop :=
  (Datatypes.length (rows v) <= Datatypes.length (playlist (app v)))%nat.

End Rows.

(** Three files, and the view while "b" is searched. *)
Definition three : view :=
  _add_paths (fun p => p) ["a.mp3"; "b.mp3"; "bb.mp3"] start.

Definition searching_b : view := search (fun p => p) (fun p => p) "b" three.

End View.

(** ** Album art *)

Module Art.

(** What the label of the album art shows. *)
Inductive shown (image : Type) : Type :=
| Placeholder
| Picture (img : image).

Arguments Placeholder {image}.
Arguments Picture {image} img.

Section Cover.

Variable image : Type.

(** What the outside answers while the art of one track is set:
    [extract_embedded_art(path)], [os.path.exists] and [Image.open] for a
    candidate file of the folder ([None] standing for an exception), and
    whether [ImageOps.fit] and [PhotoImage] accept a picture. *)
Record files : Type := mkFiles {
  embedded : option image;
  exists_ : string -> bool;
  open_ : string -> option image;
  fits : image -> bool
}.

(** [_display_pil_image(pil_img)]: the placeholder when anything raises. *)
Definition _display_pil_image (fs : files) (img : image) : shown image :=
  if fits fs img then Picture img else Placeholder.

(** The loop of [_set_art_for] over the candidate names: the first one
    that exists is opened and shown, or, when it cannot be opened, ends
    the loop. *)
Fixpoint first_cover (fs : files) (names : list string) : shown image :=
  match names with
  | [] => Placeholder
  | name :: rest =>
      if exists_ fs name then
        match open_ fs name with
        | Some img => _display_pil_image fs img
        | None => Placeholder
        end
      else first_cover fs rest
  end.

(** The names [_set_art_for] tries, in its order. *)
Definition candidates : list string :=
  ["cover.jpg"; "cover.png"; "folder.jpg"; "album.jpg"].

(** [_set_art_for(path)] *)
Definition _set_art_for (fs : files) : shown image :=
  match embedded fs with
  | Some img => _display_pil_image fs img
  | None => first_cover fs candidates
  end.

End Cover.

(** A folder whose [cover.jpg] is damaged and whose [folder.jpg] is
    fine. *)
Definition damaged_cover : files string :=
  {| embedded := None;
     exists_ := fun n => (n =? "cover.jpg")%string || (n =? "folder.jpg")%string;
     open_ := fun n => if (n =? "folder.jpg")%string then Some "folder" else None;
     fits := fun _ => true |}.

End Art.

(** ** Labels of two digits *)

(** The character of a digit, and a number below 100 in two digits. *)
Definition digit (z : Z) : ascii := ascii_of_nat (48 + Z.to_nat z).

Definition two_digits (z : Z) : string :=
  String (digit (z / 10)) (String (digit (z mod 10)) EmptyString).

(** ** Proof automation *)

(** Case analysis on the scrutinee of a [match] of the goal. *)
Ltac break_match :=
  match goal with
  | |- context [match ?x with _ => _ end] => destruct x eqn:?
  end.

(** * Properties *)

(** ** Floats *)

Lemma zero_SF : Prim2SF 0%float = S754_zero false.
Proof. reflexivity. Qed.

(** A float above zero is not zero: it passes [if x:]. *)
Lemma above_zero_truthy (x : float) :
  PrimFloat.ltb 0%float x = true -> Py.truthy x = true.
Proof.
  unfold Py.truthy.
  rewrite FloatAxioms.ltb_spec, FloatAxioms.eqb_spec, zero_SF.
  unfold SFltb, SFeqb.
  destruct (Prim2SF x) as [sx|sx| |sx mx ex]; simpl; try discriminate;
    destruct sx; discriminate || reflexivity.
Qed.

Lemma above_zero_positive (x : float) :
  PrimFloat.ltb 0%float x = true -> Py.positive x = true.
Proof.
  intros H. unfold Py.positive. now rewrite (above_zero_truthy H), H.
Qed.

(** Whatever lies below a negative position lies below zero. *)
Lemma leb_below_zero (a p : float) :
  PrimFloat.leb a p = true -> PrimFloat.ltb p 0%float = true ->
  PrimFloat.leb a 0%float = true.
Proof.
  rewrite !FloatAxioms.leb_spec, FloatAxioms.ltb_spec, zero_SF.
  unfold SFleb, SFltb.
  destruct (Prim2SF p) as [sp|sp| |sp mp ep]; simpl; try discriminate;
    destruct sp; try discriminate;
    destruct (Prim2SF a) as [sa|sa| |sa ma ea]; simpl; try discriminate;
    try (destruct sa; simpl; discriminate || reflexivity).
Qed.

(** Clamping a position at zero keeps it past any threshold it was past. *)
Lemma leb_clamp0 (a p : float) :
  PrimFloat.leb a p = true -> PrimFloat.leb a (clamp0 p) = true.
Proof.
  intros H. unfold clamp0.
  destruct (PrimFloat.ltb p 0%float) eqn:Hp; [eapply leb_below_zero; eauto | exact H].
Qed.

Lemma not_negative_ltb (x : spec_float) :
  not_negative x -> SFltb x (S754_zero false) = false.
Proof.
  destruct x as [s|s| |s m e]; cbn; try reflexivity; intros ->; reflexivity.
Qed.

(** Rounding keeps the sign. *)
Lemma binary_round_aux_sign (prec emax mx ex : Z) (lx : location) :
  not_negative (binary_round_aux prec emax false mx ex lx).
Proof.
  unfold binary_round_aux.
  destruct (shr_fexp prec emax mx ex lx) as [mrs' e'].
  destruct (shr_fexp _ _ _ _ _) as [mrs'' e''].
  destruct (shr_m mrs''); cbn; trivial.
  destruct (_ <=? _); cbn; reflexivity.
Qed.

Lemma leb_zero_cases (x : float) :
  PrimFloat.leb 0%float x = true ->
  match Prim2SF x with
  | S754_zero _ => True
  | S754_infinity s | S754_finite s _ _ => s = false
  | S754_nan => False
  end.
Proof.
  rewrite FloatAxioms.leb_spec, zero_SF. unfold SFleb.
  destruct (Prim2SF x) as [s|s| |s m e]; cbn; trivial;
    try discriminate; destruct s; trivial; discriminate.
Qed.

Lemma ltb_zero_cases (x : float) :
  PrimFloat.ltb 0%float x = true ->
  match Prim2SF x with
  | S754_infinity s | S754_finite s _ _ => s = false
  | S754_zero _ | S754_nan => False
  end.
Proof.
  rewrite FloatAxioms.ltb_spec, zero_SF. unfold SFltb.
  destruct (Prim2SF x) as [s|s| |s m e]; cbn; trivial;
    try discriminate; destruct s; trivial; discriminate.
Qed.

(** The seek target [(val / 100) * D] of a slider value that is not
    negative and a positive duration is not negative. *)
Lemma seek_target_not_negative (val D : float) :
  PrimFloat.leb 0%float val = true -> PrimFloat.ltb 0%float D = true ->
  PrimFloat.ltb (val / 100 * D)%float 0%float = false.
Proof.
  intros Hv HD. apply leb_zero_cases in Hv. apply ltb_zero_cases in HD.
  rewrite FloatAxioms.ltb_spec, FloatAxioms.mul_spec, FloatAxioms.div_spec, zero_SF.
  apply not_negative_ltb.
  assert (not_negative (SF64div (Prim2SF val) (Prim2SF 100%float))) as Hq.
  { change (Prim2SF 100%float) with (S754_finite false 7036874417766400 (-46)).
    unfold SF64div, SFdiv.
    destruct (Prim2SF val) as [s|s| |s m e]; try contradiction; cbn; trivial.
    - subst s. reflexivity.
    - subst s. cbn [xorb].
      destruct (SFdiv_core_binary _ _ _ _ _ _) as [[mz ez] lz].
      apply binary_round_aux_sign. }
  unfold SF64mul, SFmul.
  destruct (SF64div _ _) as [sq|sq| |sq mq eq]; cbn in Hq;
    destruct (Prim2SF D) as [sd|sd| |sd md ed]; try contradiction; subst;
    cbn; trivial.
  apply binary_round_aux_sign.
Qed.

(** ** Lists *)

Lemma len_nonneg {A : Type} (l : list A) : 0 <= Py.len l.
Proof. unfold Py.len. lia. Qed.

Lemma len_app {A : Type} (l1 l2 : list A) :
  Py.len (l1 ++ l2) = Py.len l1 + Py.len l2.
Proof. unfold Py.len. rewrite length_app. lia. Qed.

Lemma pop_in_range {A : Type} (l : list A) (i : Z) :
  0 <= i < Py.len l ->
  exists l', Py.pop l i = Some l' /\ Py.len l' = Py.len l - 1.
Proof.
  intros Hi. unfold Py.pop.
  assert ((i <? 0) = false) as E1 by (apply Z.ltb_ge; lia).
  assert ((Py.len l <=? i) = false) as E2 by (apply Z.leb_gt; lia).
  cbv zeta. rewrite !E1, E2. cbn [orb]. eexists; split; [reflexivity|].
  unfold Py.len in *. rewrite length_app, length_firstn, length_skipn. lia.
Qed.

Lemma pop_past_end {A : Type} (l : list A) (i : Z) :
  Py.len l <= i -> Py.pop l i = None.
Proof.
  intros Hi. unfold Py.pop. cbv zeta. pose proof (len_nonneg l).
  assert ((i <? 0) = false) as E1 by (apply Z.ltb_ge; lia).
  assert ((Py.len l <=? i) = true) as E2 by (apply Z.leb_le; lia).
  rewrite !E1, E2. reflexivity.
Qed.

Lemma pop_incl {A : Type} (l l' : list A) (i : Z) :
  Py.pop l i = Some l' -> forall x, In x l' -> In x l.
Proof.
  unfold Py.pop.
  destruct ((_ <? 0) || _); [discriminate|].
  intros H; injection H as <-. intros x Hx.
  apply in_app_or in Hx as [Hx|Hx].
  - rewrite <- (firstn_skipn (Z.to_nat (if i <? 0 then i + Py.len l else i)) l).
    apply in_or_app; left; exact Hx.
  - rewrite <- (firstn_skipn (Z.to_nat ((if i <? 0 then i + Py.len l else i) + 1)) l).
    apply in_or_app; right; exact Hx.
Qed.

Lemma pop_NoDup {A : Type} (l l' : list A) (i : Z) :
  Py.pop l i = Some l' -> NoDup l -> NoDup l'.
Proof.
  unfold Py.pop. cbv zeta.
  set (j := if i <? 0 then i + Py.len l else i).
  destruct (j <? 0) eqn:Ej; [discriminate|]. apply Z.ltb_ge in Ej.
  destruct (Py.len l <=? j); [discriminate|]. cbn [orb].
  intros H; injection H as <-. intros Hnd.
  replace (Z.to_nat (j + 1)) with (1 + Z.to_nat j)%nat by lia.
  rewrite <- (firstn_skipn (Z.to_nat j) l) in Hnd.
  rewrite <- skipn_skipn.
  destruct (skipn (Z.to_nat j) l) as [|x r]; [exact Hnd|].
  cbn [skipn]. eapply NoDup_remove_1; eauto.
Qed.

(** ** Adding paths *)

Lemma mem_In (p : string) (l : list string) : Py.mem p l = true <-> In p l.
Proof.
  unfold Py.mem. rewrite existsb_exists. split.
  - intros (x & Hx & E). apply String.eqb_eq in E. now subst.
  - intros H. exists p. split; [exact H | apply String.eqb_refl].
Qed.

Lemma mem_app (p : string) (l1 l2 : list string) :
  Py.mem p (l1 ++ l2) = Py.mem p l1 || Py.mem p l2.
Proof. unfold Py.mem. apply existsb_app. Qed.

Lemma filter_filter_comm {A : Type} (f g : A -> bool) (l : list A) :
  filter f (filter g l) = filter g (filter f l).
Proof.
  induction l as [|a l IH]; simpl; [reflexivity|].
  destruct (g a) eqn:Eg, (f a) eqn:Ef; simpl; rewrite ?Eg, ?Ef, IH; reflexivity.
Qed.

Lemma filter_and {A : Type} (f g : A -> bool) (l : list A) :
  filter (fun x => f x && g x) l = filter g (filter f l).
Proof.
  induction l as [|a l IH]; simpl; [reflexivity|].
  destruct (f a) eqn:Ef; simpl; [destruct (g a) eqn:Eg|]; rewrite IH; reflexivity.
Qed.

Lemma first_occ_filter (f : string -> bool) (l : list string) :
  first_occ (filter f l) = filter f (first_occ l).
Proof.
  induction l as [|a l IH]; simpl; [reflexivity|].
  destruct (f a) eqn:Ef; simpl.
  - rewrite IH. f_equal. apply filter_filter_comm.
  - rewrite IH, <- filter_and. apply filter_ext. intros q.
    destruct (q =? a)%string eqn:E; simpl; [|reflexivity].
    apply String.eqb_eq in E. subst. exact Ef.
Qed.

Lemma admissible_snoc (pl : list string) (p q : string) :
  admissible (pl ++ [p]) q = admissible pl q && negb (q =? p)%string.
Proof.
  unfold admissible. rewrite mem_app. simpl. rewrite orb_false_r.
  rewrite negb_orb, andb_assoc. reflexivity.
Qed.

(** The loop appends [appended paths pl], and its flag says whether that
    is anything. *)
Lemma _add_paths_loop_spec (paths pl : list string) (added : bool) :
  _add_paths_loop paths pl added =
  (pl ++ appended paths pl,
   added || match appended paths pl with [] => false | _ :: _ => true end).
Proof.
  revert pl added. unfold appended.
  induction paths as [|p rest IH]; intros pl added; simpl.
  - rewrite app_nil_r, orb_false_r. reflexivity.
  - fold (admissible pl p). destruct (admissible pl p) eqn:E; simpl.
    + assert (first_occ (filter (admissible (pl ++ [p])) rest) =
              filter (fun q => negb (q =? p)%string)
                (first_occ (filter (admissible pl) rest))) as Hf.
      { rewrite <- first_occ_filter, <- filter_and. f_equal.
        apply filter_ext. intros q. apply admissible_snoc. }
      rewrite IH, Hf, <- app_assoc. simpl. rewrite orb_true_r. reflexivity.
    + apply IH.
Qed.

Lemma first_occ_NoDup (l : list string) : NoDup (first_occ l).
Proof.
  induction l as [|p r IH]; simpl; constructor.
  - rewrite filter_In. intros [_ H]. rewrite String.eqb_refl in H. discriminate.
  - apply NoDup_filter. exact IH.
Qed.

Lemma first_occ_In (p : string) (l : list string) : In p (first_occ l) <-> In p l.
Proof.
  induction l as [|a r IH]; simpl; [tauto|].
  rewrite filter_In, IH. destruct (p =? a)%string eqn:E.
  - apply String.eqb_eq in E. subst. intuition.
  - apply String.eqb_neq in E. simpl. intuition congruence.
Qed.

Lemma first_occ_id (l : list string) : NoDup l -> first_occ l = l.
Proof.
  induction 1 as [|p r Hp Hr IH]; simpl; [reflexivity|].
  rewrite IH. f_equal. apply forallb_filter_id. apply forallb_forall.
  intros q Hq. apply negb_true_iff, String.eqb_neq. intros ->. contradiction.
Qed.

Lemma appended_In (paths pl : list string) (p : string) :
  In p (appended paths pl) <-> In p paths /\ p <> "" /\ ~ In p pl.
Proof.
  unfold appended. rewrite first_occ_In, filter_In. unfold admissible.
  rewrite andb_true_iff, !negb_true_iff, String.eqb_neq.
  rewrite <- (mem_In p pl). destruct (Py.mem p pl); split; intros H;
    repeat split; try tauto; try discriminate.
  destruct H as (_ & _ & H). discriminate H.
Qed.

(** A list of distinct non-empty paths is appended whole to an empty
    playlist. *)
Lemma appended_fresh (paths : list string) :
  NoDup paths -> ~ In "" paths -> appended paths [] = paths.
Proof.
  intros Hnd Hne. unfold appended.
  rewrite forallb_filter_id; [apply first_occ_id; exact Hnd|].
  apply forallb_forall. intros p Hp. unfold admissible. simpl.
  rewrite andb_true_r. apply negb_true_iff, String.eqb_neq.
  intros ->. contradiction.
Qed.

(** [_add_paths] in one equation per field. *)
Lemma _add_paths_effect (paths : list string) (s : player) :
  let new := appended paths (playlist s) in
  let s' := snd (_add_paths paths s) in
  playlist s' = playlist s ++ new /\
  idx s' = match idx s, new with
           | None, _ :: _ => Some 0
           | i, _ => i
           end /\
  fst (_add_paths paths s) = Py.None_ /\
  snd (_add_paths_loop paths (playlist s) false) =
    match new with [] => false | _ :: _ => true end /\
  set_idx (set_playlist s' (playlist s)) (idx s) = s.
Proof.
  unfold _add_paths. cbv zeta.
  rewrite _add_paths_loop_spec. cbn [orb snd fst].
  destruct (appended paths (playlist s)) as [|p new] eqn:E.
  - cbn. rewrite app_nil_r. destruct s as [pl [i|] ? ? ? ? ? ? ? ? ? ? ? ?];
      cbn; repeat split.
  - destruct s as [pl [i|] ? ? ? ? ? ? ? ? ? ? ? ?]; cbn; repeat split.
Qed.

(** ** Loaded values *)

(** Over strings and falsy values the loop of [_add_paths] is the loop
    over the strings alone. *)
Lemma _add_values_loop_passes (items : list json) (pl : list string) (a : bool) :
  forallb passes items = true ->
  _add_values_loop items pl a = (_add_paths_loop (strings_of items) pl a, None).
Proof.
  revert pl a. induction items as [|v rest IH]; intros pl a H; [reflexivity|].
  cbn [forallb] in H. apply andb_true_iff in H as [Hv Hrest].
  destruct v; cbn [_add_values_loop strings_of _add_paths_loop];
    try (unfold passes in Hv; apply negb_true_iff in Hv; rewrite Hv;
         apply IH; exact Hrest).
  destruct (negb (s =? "")%string && negb (Py.mem s pl)); apply IH; exact Hrest.
Qed.

(** At the first value that is neither a string nor falsy the loop is
    left, with the strings before it gone through. *)
Lemma _add_values_loop_stops
  (pre rest : list json) (v : json) (pl : list string) (a : bool) :
  forallb passes pre = true -> passes v = false ->
  _add_values_loop (pre ++ v :: rest) pl a =
    (_add_paths_loop (strings_of pre) pl a, Some v).
Proof.
  revert pl a. induction pre as [|w pre IH]; intros pl a H Hv.
  - cbn [app strings_of _add_paths_loop].
    destruct v; try discriminate Hv; cbn [_add_values_loop];
      unfold passes in Hv; apply negb_false_iff in Hv; rewrite Hv; reflexivity.
  - cbn [forallb] in H. apply andb_true_iff in H as [Hw Hpre].
    destruct w; cbn [app _add_values_loop strings_of _add_paths_loop];
      try (unfold passes in Hw; apply negb_true_iff in Hw; rewrite Hw;
           apply IH; assumption).
    destruct (negb (s =? "")%string && negb (Py.mem s pl)); apply IH; assumption.
Qed.

(** Every list of values either is gone through, or has a first value
    at which the loop is left. *)
Lemma passes_or_stops (items : list json) :
  forallb passes items = true \/
  exists pre v rest,
    items = pre ++ v :: rest /\ forallb passes pre = true /\ passes v = false.
Proof.
  induction items as [|w items IH]; [left; reflexivity|].
  destruct (passes w) eqn:Ew.
  - destruct IH as [H|(pre & v & rest & E & Hpre & Hv)].
    + left. cbn [forallb]. now rewrite Ew, H.
    + right. exists (w :: pre), v, rest. subst items. cbn [forallb app].
      rewrite Ew, Hpre. repeat split; trivial.
  - right. exists [], w, items. repeat split; trivial.
Qed.

(** On the array of strings that [json.dump] has written, the loaded
    values are added as the paths are. *)
Lemma strings_of_dumped (paths : list string) :
  strings_of (map JStr paths) = paths /\ forallb passes (map JStr paths) = true.
Proof.
  induction paths as [|p paths [IH1 IH2]]; [split; reflexivity|].
  cbn. now rewrite IH1, IH2.
Qed.

Lemma _add_values_dumped (paths : list string) (s : player) :
  _add_values (dumped paths) s = Returned (snd (_add_paths paths s)).
Proof.
  unfold _add_values, dumped, _add_paths. cbn [json_iter].
  destruct (strings_of_dumped paths) as [E1 E2].
  rewrite (@_add_values_loop_passes (map JStr paths) _ _ E2), E1.
  destruct (_add_paths_loop paths (playlist s) false) as [pl a]. reflexivity.
Qed.

Lemma load_playlist_dumped (e : env) (s : player) (paths : list string) :
  can_read e = true ->
  load_playlist e s (Some (dumped paths)) =
    (messagebox (snd (_add_paths paths (clear_playlist s))) (ShowInfo "Loaded"),
     None).
Proof.
  intros Hr. unfold load_playlist. rewrite Hr, _add_values_dumped. reflexivity.
Qed.

(** What [load_playlist] does to the player, whatever the file holds: it
    shows a box and nothing else, or replaces the playlist by strings the
    file holds, each once and none empty, and stops playback; the index
    is then absent, or 0 with an entry to point at. *)
Lemma load_playlist_effect (e : env) (s : player) (f : file) :
  let s' := fst (load_playlist e s f) in
  ((f = None \/ can_read e = false) /\ exists d, s' = messagebox s d) \/
  (exists paths,
     playlist s' = appended paths [] /\ cleared s s' /\
     (idx s' = None \/ idx s' = Some 0 /\ playlist s' <> [])).
Proof.
  cbv zeta. unfold load_playlist.
  destruct f as [data|]; [|left; split; [left|eexists]; reflexivity].
  destruct (can_read e); [|left; split; [right|eexists]; reflexivity].
  right. unfold _add_values.
  change (playlist (clear_playlist s)) with (@nil string).
  destruct (json_iter data) as [items|].
  - destruct (passes_or_stops items) as [H|(pre & v & rest & -> & Hpre & Hv)].
    + rewrite (@_add_values_loop_passes items _ _ H), _add_paths_loop_spec.
      exists (strings_of items). cbn [app orb].
      destruct (appended (strings_of items) []) as [|p new];
        cbn; unfold cleared, issued; cbn; repeat split; auto.
      right. split; [reflexivity | discriminate].
    + rewrite (@_add_values_loop_stops pre rest v _ _ Hpre Hv), _add_paths_loop_spec.
      exists (strings_of pre). cbn. unfold cleared, issued. cbn.
      repeat split; auto.
  - exists []. cbn. unfold cleared, issued. cbn. repeat split; auto.
Qed.

(** The three ways a file that was read is loaded. *)
Lemma load_playlist_passes
  (e : env) (s : player) (data : json) (items : list json) :
  can_read e = true -> json_iter data = Some items ->
  forallb passes items = true ->
  load_playlist e s (Some data) =
    (messagebox (snd (_add_paths (strings_of items) (clear_playlist s)))
       (ShowInfo "Loaded"), None).
Proof.
  intros Hr Hi Hp. unfold load_playlist, _add_values, _add_paths.
  rewrite Hr, Hi, (@_add_values_loop_passes items _ _ Hp).
  destruct (_add_paths_loop (strings_of items) (playlist (clear_playlist s)) false)
    as [pl a].
  reflexivity.
Qed.

Lemma load_playlist_stops
  (e : env) (s : player) (data : json) (pre rest : list json) (v : json) :
  can_read e = true -> json_iter data = Some (pre ++ v :: rest) ->
  forallb passes pre = true -> passes v = false ->
  load_playlist e s (Some data) =
    (messagebox (set_playlist (clear_playlist s) (appended (strings_of pre) []))
       (ShowError "Error"), Some v).
Proof.
  intros Hr Hi Hp Hv. unfold load_playlist, _add_values.
  rewrite Hr, Hi, (@_add_values_loop_stops pre rest v _ _ Hp Hv),
    _add_paths_loop_spec.
  reflexivity.
Qed.

Lemma load_playlist_not_iterable (e : env) (s : player) (data : json) :
  can_read e = true -> json_iter data = None ->
  load_playlist e s (Some data) =
    (messagebox (clear_playlist s) (ShowError "Error"), None).
Proof.
  intros Hr Hi. unfold load_playlist, _add_values. rewrite Hr, Hi. reflexivity.
Qed.

(** ** What the playback handlers leave alone *)

Lemma same_settings_refl (s : player) : same_settings s s.
Proof. repeat split. Qed.

Lemma went_on_refl (s : player) : went_on s s.
Proof. exists []. split; [unfold issued; now rewrite app_nil_r | intros []]. Qed.

Lemma getitem_in_range {A : Type} (l : list A) (i : Z) :
  0 <= i < Py.len l -> exists x, Py.getitem l i = Some x /\ In x l.
Proof.
  intros Hi. unfold Py.getitem. cbv zeta.
  assert ((i <? 0) = false) as E1 by (apply Z.ltb_ge; lia).
  assert ((Py.len l <=? i) = false) as E2 by (apply Z.leb_gt; lia).
  rewrite !E1, E2. cbn [orb].
  destruct (nth_error l (Z.to_nat i)) as [x|] eqn:E.
  - exists x. split; [reflexivity | eapply nth_error_In; eauto].
  - apply nth_error_None in E. unfold Py.len in Hi. lia.
Qed.

Lemma _load_track_spec (e : env) (i : option Z) (s : player) :
  let r := _load_track e i s in
  same_settings s (snd r) /\ playing (snd r) = playing s /\
  paused (snd r) = paused s /\ went_on s (snd r) /\
  (fst r = true ->
   exists k path, i = Some k /\ 0 <= k < Py.len (playlist s) /\
     Py.getitem (playlist s) k = Some path /\ music_load e path = true /\
     length (snd r) = Py.or_zero (get_length_fallback e path) /\
     issued s (snd r) [Load path]) /\
  (fst r = false ->
   length (snd r) = length s /\
   forall k path, i = Some k -> 0 <= k < Py.len (playlist s) ->
     Py.getitem (playlist s) k = Some path -> music_load e path = false).
Proof.
  unfold _load_track. cbv zeta.
  destruct i as [k|];
    [|cbn; repeat split; auto using went_on_refl; discriminate].
  destruct ((k <? 0) || (Py.len (playlist s) <=? k)) eqn:Ek.
  { cbn. repeat split; auto using went_on_refl; try discriminate.
    intros k' path Ek' Hk'. injection Ek' as <-.
    apply orb_true_iff in Ek as [E|E];
      [apply Z.ltb_lt in E | apply Z.leb_le in E]; lia. }
  apply orb_false_iff in Ek as [E1 E2]. apply Z.ltb_ge in E1. apply Z.leb_gt in E2.
  destruct (Py.getitem (playlist s) k) as [path|] eqn:Eg.
  2:{ cbn. repeat split; auto using went_on_refl; try discriminate.
      intros k' path Ek' _ Hg. injection Ek' as <-. congruence. }
  destruct (music_load e path) eqn:El.
  - destruct (Py.positive _) eqn:Ep; cbn; repeat split; trivial;
      try discriminate;
      try (exists [Load path]; split; [reflexivity|];
           intros [H|[]]; discriminate);
      intros _; exists k, path; repeat split; trivial; lia.
  - cbn. repeat split; trivial; try discriminate.
    + exists [Load path]; split; [reflexivity|]. intros [H|[]]; discriminate.
    + intros k' path' Ek' _ Hg. injection Ek' as <-. congruence.
Qed.

(** [start_playback]: either the track was loaded and the player is
    playing it, or the flags are what they were. *)
Lemma start_playback_spec (e : env) (s : player) :
  let s' := start_playback e s in
  same_settings s s' /\ went_on s s' /\
  ((playing s' = true /\ paused s' = false /\
    exists k path, idx s = Some k /\ 0 <= k < Py.len (playlist s) /\
      Py.getitem (playlist s) k = Some path /\ music_load e path = true /\
      length s' = Py.or_zero (get_length_fallback e path) /\
      issued s s' [Load path; Play None; SetVolume (vol_var e)]) \/
   (playing s' = playing s /\ paused s' = paused s /\ length s' = length s /\
    forall k path, idx s = Some k -> 0 <= k < Py.len (playlist s) ->
      Py.getitem (playlist s) k = Some path -> music_load e path = false)).
Proof.
  unfold start_playback. cbv zeta.
  destruct (idx s) as [k|] eqn:Ei.
  - pose proof (_load_track_spec e (Some k) s) as H. cbv zeta in H.
    destruct (_load_track e (Some k) s) as [ok s1]. cbn [fst snd] in H.
    destruct H as (Hs & Hp & Hq & Hw & Hok & Hko).
    destruct Hs as (H1 & H2 & H3 & H4 & H5 & H6).
    destruct ok; cbn [negb].
    + destruct (Hok eq_refl) as (k' & path & Ek & Hk & Hg & Hl & Hlen & Hiss).
      injection Ek as <-.
      split; [repeat split; cbn; congruence|].
      split.
      * exists [Load path; Play None; SetVolume (vol_var e)]. split.
        -- unfold issued in *. cbn. rewrite Hiss, <- !app_assoc. reflexivity.
        -- cbn. intros [H|[H|[H|[]]]]; discriminate.
      * left. cbn. repeat split.
        exists k, path. repeat split; trivial; try lia.
        unfold issued in *. cbn. rewrite Hiss, <- !app_assoc. reflexivity.
    + split; [repeat split; congruence|]. split; [exact Hw|].
      right. repeat split; trivial; [apply Hko; reflexivity|].
      intros k' path Ek Hk Hg.
      destruct (Hko eq_refl) as [_ Hf]. eapply Hf; eauto.
  - split; [apply same_settings_refl|]. split; [apply went_on_refl|].
    right. repeat split. intros; discriminate.
Qed.

(** ** The playlist holds distinct, non-empty paths *)

Lemma appended_NoDup (paths pl : list string) :
  NoDup pl -> NoDup (pl ++ appended paths pl).
Proof.
  intros Hpl. apply NoDup_app; [exact Hpl | apply first_occ_NoDup |].
  intros p Hp Hq. apply appended_In in Hq. tauto.
Qed.

Lemma _add_paths_wf (paths : list string) (s : player) :
  playlist_wf s -> playlist_wf (snd (_add_paths paths s)).
Proof.
  intros [Hnd Hne]. unfold playlist_wf.
  destruct (_add_paths_effect paths s) as (-> & _). split.
  - apply appended_NoDup; exact Hnd.
  - intros H. apply in_app_or in H as [H|H]; [tauto|].
    apply appended_In in H. tauto.
Qed.

Lemma appended_wf (paths : list string) :
  NoDup (appended paths []) /\ ~ In "" (appended paths []).
Proof.
  assert (playlist_wf init) as H0 by (split; cbn; [constructor | intros []]).
  pose proof (_add_paths_wf paths H0) as H.
  destruct (_add_paths_effect paths init) as (E & _). cbv zeta in E.
  unfold playlist_wf in H. rewrite E in H. exact H.
Qed.

Lemma start_playback_playlist (e : env) (s : player) :
  playlist (start_playback e s) = playlist s.
Proof. apply (start_playback_spec e s). Qed.

Lemma start_playback_idx (e : env) (s : player) :
  idx (start_playback e s) = idx s.
Proof. apply (start_playback_spec e s). Qed.

Lemma start_playback_manual (e : env) (s : player) :
  _manual_seek_pos (start_playback e s) = _manual_seek_pos s.
Proof. apply (start_playback_spec e s). Qed.

Lemma next_song_playlist (e : env) (s : player) :
  playlist (next_song e s) = playlist s.
Proof.
  unfold next_song. repeat break_match;
    rewrite ?start_playback_playlist; cbn; congruence.
Qed.

Lemma next_song_manual (e : env) (s : player) :
  _manual_seek_pos (next_song e s) = _manual_seek_pos s.
Proof.
  unfold next_song. repeat break_match;
    rewrite ?start_playback_manual; cbn; congruence.
Qed.

Lemma prev_song_playlist (e : env) (s : player) :
  playlist (after (prev_song e s)) = playlist s.
Proof.
  unfold prev_song. repeat break_match; cbn [after];
    rewrite ?start_playback_playlist; cbn; congruence.
Qed.

Lemma play_pause_playlist (e : env) (s : player) :
  playlist (play_pause e s) = playlist s.
Proof.
  unfold play_pause. repeat break_match;
    rewrite ?start_playback_playlist; cbn; congruence.
Qed.

Lemma _on_seek_playlist (e : env) (val : float) (s : player) :
  playlist (after (_on_seek e val s)) = playlist s.
Proof. unfold _on_seek. cbv zeta. repeat break_match; cbn; congruence. Qed.

Lemma _update_loop_playlist (e : env) (s : player) :
  playlist (_update_loop e s) = playlist s.
Proof.
  unfold _update_loop. cbv zeta. repeat break_match;
    rewrite ?next_song_playlist; cbn; congruence.
Qed.

Lemma remove_selected_wf (sel : list nat) (s : player) :
  playlist_wf s -> playlist_wf (after (remove_selected sel s)).
Proof.
  intros [Hnd Hne]. unfold remove_selected. cbv zeta.
  destruct sel as [|row sel]; [split; assumption|].
  destruct (Py.pop (playlist s) (Z.of_nat row)) as [pl|] eqn:Ep;
    [|split; assumption].
  assert (playlist_wf (set_playlist s pl)) as Hwf.
  { split; cbn; [eapply pop_NoDup; eauto|].
    intros H. apply Hne. eapply pop_incl; eauto. }
  repeat break_match; cbn [after]; exact Hwf.
Qed.

Lemma step_wf (e : env) (ev : event) (w : world) :
  playlist_wf (fst w) -> playlist_wf (fst (step e ev w)).
Proof.
  destruct w as [s f]. cbn [fst]. intros Hwf.
  assert (forall s', playlist s' = playlist s -> playlist_wf s') as Hsame.
  { intros s' E. unfold playlist_wf. rewrite E. exact Hwf. }
  destruct ev; cbn [step fst].
  - apply _add_paths_wf; exact Hwf.
  - apply remove_selected_wf; exact Hwf.
  - split; cbn; [constructor | intros []].
  - apply Hsame. unfold play_selected. cbv zeta.
    rewrite start_playback_playlist.
    destruct name; repeat break_match; cbn; congruence.
  - unfold save_playlist. destruct (can_write e); cbn; exact Hwf.
  - destruct (load_playlist_effect e s f) as [(_ & d & ->)|(paths & Hpl & _)];
      [exact Hwf|].
    unfold playlist_wf. rewrite Hpl. apply appended_wf.
  - apply Hsame, play_pause_playlist.
  - exact Hwf.
  - apply Hsame, next_song_playlist.
  - apply Hsame, prev_song_playlist.
  - apply Hsame, _on_seek_playlist.
  - exact Hwf.
  - exact Hwf.
  - apply Hsame. unfold cycle_repeat. destruct (repeat s); reflexivity.
  - apply Hsame, _update_loop_playlist.
Qed.

Lemma run_wf (tr : list (env * event)) (w : world) :
  playlist_wf (fst w) -> playlist_wf (fst (run tr w)).
Proof.
  revert w. induction tr as [|[e ev] tr IH]; intros w Hwf; cbn [run];
    [exact Hwf|]. apply IH, step_wf, Hwf.
Qed.

(** Whatever the application has done, its playlist holds distinct,
    non-empty paths. *)
Lemma reachable_wf (s : player) : reachable s -> playlist_wf s.
Proof.
  intros (tr & f & Hrun).
  pose proof (run_wf tr (init, None)) as H. rewrite Hrun in H.
  apply H. split; cbn; [constructor | intros []].
Qed.

(** In a run the file is absent or holds what [save_playlist] wrote, an
    array of strings; loading it leaves nothing in the playlist that is
    not a string. *)
Lemma step_file_dumped (e : env) (ev : event) (w : world) :
  (snd w = None \/ exists pl, snd w = Some (dumped pl)) ->
  snd (step e ev w) = None \/ exists pl, snd (step e ev w) = Some (dumped pl).
Proof.
  destruct w as [s f]. cbn [snd]. intros H.
  destruct ev; cbn [step snd]; try exact H.
  unfold save_playlist. destruct (can_write e); cbn [snd]; [|exact H].
  right. eexists. reflexivity.
Qed.

Lemma run_file_dumped (tr : list (env * event)) (w : world) :
  (snd w = None \/ exists pl, snd w = Some (dumped pl)) ->
  snd (run tr w) = None \/ exists pl, snd (run tr w) = Some (dumped pl).
Proof.
  revert w. induction tr as [|[e ev] tr IH]; intros w H; cbn [run];
    [exact H|]. apply IH, step_file_dumped, H.
Qed.

Lemma run_load_leaves_no_stray
  (tr : list (env * event)) (e : env) (s : player) (f : file) :
  run tr (init, None) = (s, f) -> snd (load_playlist e s f) = None.
Proof.
  intros Hrun.
  pose proof (run_file_dumped tr (init, None) (or_introl eq_refl)) as H.
  rewrite Hrun in H. cbn [snd] in H. destruct H as [->|(pl & ->)]; [reflexivity|].
  destruct (can_read e) eqn:Er.
  - rewrite (@load_playlist_dumped e s pl Er). reflexivity.
  - unfold load_playlist. rewrite Er. reflexivity.
Qed.

(** ** C7: saving and loading *)

Lemma load_saved (e : env) (s : player) (P : list string) :
  can_read e = true -> NoDup P -> ~ In "" P ->
  playlist (fst (load_playlist e s (Some (dumped P)))) = P /\
  snd (load_playlist e s (Some (dumped P))) = None.
Proof.
  intros Hr Hnd Hne. rewrite (@load_playlist_dumped e s P Hr). cbn [fst snd].
  split; [|reflexivity].
  destruct (_add_paths_effect P (clear_playlist s)) as (Hpl & _).
  cbv zeta in Hpl. cbn in Hpl. rewrite appended_fresh in Hpl by assumption.
  exact Hpl.
Qed.

(** C7.  Let [P] be a duplicate-free list of paths and [s] a player of
    the application whose playlist is exactly [P].  When the file can be
    written, [save_playlist] stores [P], as the array of its paths;
    loading that file, into whatever player [s2], gives a playlist equal
    to [P], order included, and nothing else gets into the playlist. *)
Theorem save_then_load_round_trip
  (P : list string) (s s2 : player) (f : file) (e1 e2 : env) :
  reachable s -> playlist s = P -> NoDup P ->
  can_write e1 = true -> can_read e2 = true ->
  snd (save_playlist e1 s f) = Some (dumped P) /\
  playlist (fst (load_playlist e2 s2 (snd (save_playlist e1 s f)))) = P /\
  snd (load_playlist e2 s2 (snd (save_playlist e1 s f))) = None.
Proof.
  intros Hreach HP Hnd Hw Hr.
  assert (snd (save_playlist e1 s f) = Some (dumped P)) as Hs.
  { unfold save_playlist. rewrite Hw. cbn. now rewrite HP. }
  split; [exact Hs|]. rewrite Hs.
  apply load_saved; trivial.
  destruct (reachable_wf Hreach) as [_ Hne]. now rewrite HP in Hne.
Qed.

Lemma two_tracks_reachable : reachable two_tracks.
Proof.
  exists [(env0, AddPaths ["a.mp3"; "b.mp3"])], None. reflexivity.
Qed.

Lemma save_then_load_round_trip_witness :
  snd (save_playlist env0 two_tracks None) = Some (dumped ["a.mp3"; "b.mp3"]) /\
  playlist (fst (load_playlist env0 init (snd (save_playlist env0 two_tracks None))))
  = ["a.mp3"; "b.mp3"] /\
  snd (load_playlist env0 init (snd (save_playlist env0 two_tracks None))) = None.
Proof.
  apply (@save_then_load_round_trip ["a.mp3"; "b.mp3"] two_tracks init None env0 env0).
  - exact two_tracks_reachable.
  - reflexivity.
  - repeat constructor; cbn; intuition discriminate.
  - reflexivity.
  - reflexivity.
Defined.

(** ** C1 and C6: the current index under add and remove *)

Lemma _add_paths_idx_ok (paths : list string) (s : player) :
  idx_ok s -> idx_ok (snd (_add_paths paths s)).
Proof.
  unfold idx_ok. intros H.
  destruct (_add_paths_effect paths s) as (Hpl & Hi & _). cbv zeta in Hpl, Hi.
  rewrite Hpl, Hi, len_app.
  pose proof (len_nonneg (appended paths (playlist s))) as Hn.
  destruct (idx s) as [i|]; [destruct (appended _ _); lia|].
  destruct (appended paths (playlist s)) as [|p new] eqn:E; [exact I|].
  pose proof (len_nonneg (playlist s)). unfold Py.len in *. cbn in *. lia.
Qed.

(** Removing a row that exists: the three cases of [remove_selected]. *)
Lemma remove_selected_cases (row : nat) (rest : list nat) (s : player) :
  Z.of_nat row < Py.len (playlist s) ->
  exists pl,
    Py.pop (playlist s) (Z.of_nat row) = Some pl /\
    Py.len pl = Py.len (playlist s) - 1 /\
    remove_selected (row :: rest) s =
      match idx s with
      | Some k =>
          if k =? Z.of_nat row
          then Ok (set_idx (stop_song (set_playlist s pl)) None)
          else if Z.of_nat row <? k
               then Ok (set_idx (set_playlist s pl) (Some (k - 1)))
               else Ok (set_playlist s pl)
      | None => Ok (set_playlist s pl)
      end.
Proof.
  intros Hrow.
  destruct (@pop_in_range _ (playlist s) (Z.of_nat row)) as (pl & Hp & Hl); [lia|].
  exists pl. repeat split; trivial.
  unfold remove_selected. cbv zeta. rewrite Hp. unfold idx_is. cbn.
  destruct (idx s) as [k|]; [|reflexivity].
  destruct (k =? Z.of_nat row); reflexivity.
Qed.

Lemma remove_selected_idx_ok (sel : list nat) (s : player) :
  idx_ok s -> idx_ok (after (remove_selected sel s)).
Proof.
  intros H. destruct sel as [|row rest]; [exact H|].
  destruct (Z.of_nat row <? Py.len (playlist s)) eqn:Hrow.
  - apply Z.ltb_lt in Hrow.
    destruct (@remove_selected_cases row rest s Hrow) as (pl & _ & Hl & ->).
    unfold idx_ok in *. destruct (idx s) as [k|] eqn:Ek.
    + destruct (k =? Z.of_nat row) eqn:E1; [exact I|].
      apply Z.eqb_neq in E1.
      destruct (Z.of_nat row <? k) eqn:E2; cbn; rewrite ?Ek;
        [apply Z.ltb_lt in E2 | apply Z.ltb_ge in E2]; lia.
    + cbn. rewrite Ek. exact I.
  - apply Z.ltb_ge in Hrow. unfold remove_selected. cbv zeta.
    rewrite pop_past_end by lia. exact H.
Qed.

Lemma apply_op_idx_ok (o : playlist_op) (s : player) :
  idx_ok s -> idx_ok (apply_op o s).
Proof.
  destruct o; cbn; [apply _add_paths_idx_ok | apply remove_selected_idx_ok].
Qed.

Lemma apply_ops_idx_ok (ops : list playlist_op) (s : player) :
  idx_ok s -> idx_ok (apply_ops ops s).
Proof.
  revert s. induction ops as [|o ops IH]; intros s H; [exact H|].
  apply IH, apply_op_idx_ok, H.
Qed.

(** C1.  Start from the empty playlist with no current index and apply
    any sequence of add and remove operations: after each of them (after
    the first [n], for every [n]) the current index is absent or a valid
    index into the playlist.  More generally the operations keep that
    property of whatever player has it.  This is so because, in such a
    player, removing a row strictly below the current index lowers the
    current index by one, and removing the row of the current index makes
    it absent. *)
Theorem index_valid_under_add_remove :
  (forall (ops : list playlist_op) (n : nat),
     idx_ok (apply_ops (firstn n ops) init)) /\
  (forall (ops : list playlist_op) (s : player),
     idx_ok s -> idx_ok (apply_ops ops s)) /\
  (forall (s : player) (row : nat) (k : Z),
     idx_ok s -> idx s = Some k -> Z.of_nat row < k ->
     idx (apply_op (Remove [row]) s) = Some (k - 1)) /\
  (forall (s : player) (row : nat),
     idx_ok s -> idx s = Some (Z.of_nat row) ->
     idx (apply_op (Remove [row]) s) = None).
Proof.
  split; [intros ops n; apply apply_ops_idx_ok; exact I|].
  split; [intros ops s; apply apply_ops_idx_ok|].
  split.
  - intros s row k H Ek Hlt. unfold idx_ok in H. rewrite Ek in H.
    cbn [apply_op].
    destruct (@remove_selected_cases row [] s) as (pl & _ & _ & ->); [lia|].
    rewrite Ek.
    assert ((k =? Z.of_nat row) = false) as -> by (apply Z.eqb_neq; lia).
    assert ((Z.of_nat row <? k) = true) as -> by (apply Z.ltb_lt; lia).
    reflexivity.
  - intros s row H Ek. unfold idx_ok in H. rewrite Ek in H. cbn [apply_op].
    destruct (@remove_selected_cases row [] s) as (pl & _ & _ & ->); [lia|].
    rewrite Ek, Z.eqb_refl. reflexivity.
Qed.

Lemma second_current_idx_ok : idx_ok second_current.
Proof. vm_compute. split; [discriminate | reflexivity]. Qed.

Lemma index_valid_under_add_remove_witness :
  idx second_current = Some 1 /\
  idx (apply_op (Remove [0%nat]) second_current) = Some 0 /\
  idx (apply_op (Remove [1%nat]) second_current) = None /\
  idx_ok (apply_ops [Remove [0%nat]; Add ["c.mp3"]; Remove [1%nat];
                     Remove [5%nat]; Remove [0%nat]] second_current).
Proof.
  destruct index_valid_under_add_remove as (_ & Hkeep & Hbelow & Hcur).
  split; [vm_compute; reflexivity|]. split; [|split].
  - apply (Hbelow second_current 0%nat 1).
    + exact second_current_idx_ok.
    + vm_compute. reflexivity.
    + vm_compute. reflexivity.
  - apply (Hcur second_current 1%nat).
    + exact second_current_idx_ok.
    + vm_compute. reflexivity.
  - apply Hkeep. exact second_current_idx_ok.
Defined.

(** C6.  In every player whose current index points at an entry of the
    playlist, removing that entry succeeds, stops playback (a [Stop] goes
    to the mixer; [playing] and [paused] are both false afterwards) and
    leaves the current index absent. *)
Theorem remove_current_stops (row : nat) (rest : list nat) (s : player) :
  idx s = Some (Z.of_nat row) -> Z.of_nat row < Py.len (playlist s) ->
  exists s',
    remove_selected (row :: rest) s = Ok s' /\
    playback_of s' = Stopped /\ playing s' = false /\ paused s' = false /\
    idx s' = None /\ issued s s' [Stop] /\
    Py.pop (playlist s) (Z.of_nat row) = Some (playlist s').
Proof.
  intros Ek Hrow.
  destruct (@remove_selected_cases row rest s Hrow) as (pl & Hp & _ & ->).
  rewrite Ek, Z.eqb_refl. eexists. split; [reflexivity|].
  cbn. repeat split. exact Hp.
Qed.

Lemma remove_current_stops_witness :
  exists s',
    remove_selected [0%nat] one_paused = Ok s' /\
    playback_of s' = Stopped /\ playing s' = false /\ paused s' = false /\
    idx s' = None /\ issued one_paused s' [Stop] /\
    Py.pop (playlist one_paused) (Z.of_nat 0) = Some (playlist s').
Proof.
  apply (@remove_current_stops 0%nat [] one_paused).
  - reflexivity.
  - vm_compute. reflexivity.
Defined.

(** ** C2 and C3: next and previous at the ends of the playlist *)

Lemma went_on_same_log (s s0 s' : player) :
  transport s0 = transport s -> went_on s0 s' -> went_on s s'.
Proof. intros E (cs & H & Hn). exists cs. unfold issued in *. split; congruence. Qed.

(** Starting playback never stops it: a player that was playing still
    is, no [Stop] is issued, and if the current track loads the player
    ends up in [Playing]. *)
Lemma start_playback_goes_on (e : env) (s0 : player) :
  let s' := start_playback e s0 in
  idx s' = idx s0 /\ went_on s0 s' /\
  (playing s0 = true -> playing s' = true) /\
  (forall k path,
     idx s0 = Some k -> 0 <= k < Py.len (playlist s0) ->
     Py.getitem (playlist s0) k = Some path -> music_load e path = true ->
     playback_of s' = Playing).
Proof.
  destruct (start_playback_spec e s0) as (Hs & Hw & Hc). cbv zeta.
  split; [apply Hs|]. split; [exact Hw|]. split.
  - destruct Hc as [(Hp & _)|(Hp & _)]; congruence.
  - intros k path Ek Hk Hg Hl. unfold playback_of.
    destruct Hc as [(Hp & Hq & _)|(_ & _ & _ & Hf)].
    + now rewrite Hp, Hq.
    + rewrite (Hf k path Ek Hk Hg) in Hl. discriminate.
Qed.

Lemma getitem_lt {A : Type} (l : list A) (k : Z) (x : A) :
  0 <= k -> Py.getitem l k = Some x -> k < Py.len l.
Proof.
  intros Hk Hg. unfold Py.getitem in Hg. cbv zeta in Hg.
  assert ((k <? 0) = false) as E by (apply Z.ltb_ge; lia).
  rewrite !E in Hg. cbn [orb] in Hg.
  destruct (Py.len l <=? k) eqn:E2; [discriminate|].
  apply Z.leb_gt in E2. exact E2.
Qed.

Lemma start_playback_loaded (e : env) (s : player) (k : Z) (path : string) :
  idx s = Some k -> 0 <= k -> Py.getitem (playlist s) k = Some path ->
  music_load e path = true ->
  playback_of (start_playback e s) = Playing /\
  issued s (start_playback e s) [Load path; Play None; SetVolume (vol_var e)] /\
  length (start_playback e s) = Py.or_zero (get_length_fallback e path) /\
  total_lbl (start_playback e s) =
    (if Py.positive (Py.or_zero (get_length_fallback e path))
     then ("/ " ++ format_time (Py.or_zero (get_length_fallback e path)))%string
     else "/ 00:00") /\
  slider (start_playback e s) = 0%float /\
  same_settings s (start_playback e s).
Proof.
  intros Ek Hk Hg Hl. unfold start_playback, _load_track. rewrite Ek.
  assert (k < Py.len (playlist s)) as Hlt.
  { unfold Py.getitem in Hg. cbv zeta in Hg.
    assert ((k <? 0) = false) as E by (apply Z.ltb_ge; lia).
    rewrite !E in Hg. cbn [orb] in Hg.
    destruct (Py.len (playlist s) <=? k) eqn:E2; [discriminate|].
    apply Z.leb_gt in E2. exact E2. }
  assert (((k <? 0) || (Py.len (playlist s) <=? k)) = false) as ->.
  { apply orb_false_iff. split; [apply Z.ltb_ge | apply Z.leb_gt]; lia. }
  rewrite Hg. cbv zeta. rewrite Hl.
  cbn [length set_length mixer].
  destruct (Py.positive (Py.or_zero (get_length_fallback e path)));
    unfold playback_of, issued, same_settings; cbn;
    rewrite <- ?app_assoc; cbn; repeat split; trivial.
Qed.

Lemma start_playback_failed (e : env) (s : player) (k : Z) (path : string) :
  idx s = Some k -> 0 <= k -> Py.getitem (playlist s) k = Some path ->
  music_load e path = false ->
  start_playback e s = messagebox (mixer s (Load path)) (ShowError "Load Error").
Proof.
  intros Ek Hk Hg Hl. unfold start_playback, _load_track. rewrite Ek.
  pose proof (getitem_lt _ Hk Hg) as Hlt.
  assert (((k <? 0) || (Py.len (playlist s) <=? k)) = false) as ->.
  { apply orb_false_iff. split; [apply Z.ltb_ge | apply Z.leb_gt]; lia. }
  rewrite Hg. cbv zeta. rewrite Hl. reflexivity.
Qed.

(** C2.  With a non-empty playlist, shuffle off and the current index on
    the last entry, [next_song] under repeat-all sets the current index
    to 0 and keeps playing: it is [start_playback] on index 0.  The first
    track is loaded and played from its start ([load], [play()] and
    [set_volume] are the calls that go to the mixer, no [stop()]), the
    player is [Playing] and the duration is that of the first track; if
    the first track cannot be loaded, the load attempt and the error box
    are all that happens, so a player that was playing still is.  Under
    any other repeat mode it stops playback: the player is in [Stopped]
    and a [Stop] has gone to the mixer. *)
Theorem next_song_on_last_index (e : env) (s : player) :
  playlist s <> [] -> shuffle s = false ->
  idx s = Some (Py.len (playlist s) - 1) ->
  (repeat s = all ->
   next_song e s = start_playback e (set_idx s (Some 0)) /\
   idx (next_song e s) = Some 0 /\ went_on s (next_song e s) /\
   (playing s = true -> playing (next_song e s) = true) /\
   (forall path, Py.getitem (playlist s) 0 = Some path ->
      music_load e path = true ->
      playback_of (next_song e s) = Playing /\
      issued s (next_song e s) [Load path; Play None; SetVolume (vol_var e)] /\
      length (next_song e s) = Py.or_zero (get_length_fallback e path)) /\
   (forall path, Py.getitem (playlist s) 0 = Some path ->
      music_load e path = false ->
      next_song e s =
        messagebox (mixer (set_idx s (Some 0)) (Load path))
          (ShowError "Load Error")) /\
   exists path, Py.getitem (playlist s) 0 = Some path) /\
  (repeat s <> all ->
   playback_of (next_song e s) = Stopped /\ playing (next_song e s) = false /\
   paused (next_song e s) = false /\ issued s (next_song e s) [Stop]).
Proof.
  intros Hne Hsh Hi.
  assert (repeat s = all ->
          next_song e s = start_playback e (set_idx s (Some 0))) as Hstart.
  { intros Hr. unfold next_song.
    destruct (playlist s) as [|p pl] eqn:Epl; [congruence|].
    rewrite Hsh, Hi. cbv zeta. cbn [playlist set_idx]. rewrite Epl.
    assert ((Py.len (p :: pl) <=? Py.len (p :: pl) - 1 + 1) = true) as ->
      by (apply Z.leb_le; lia).
    cbn [repeat set_idx]. rewrite Hr.
    destruct s; reflexivity. }
  split.
  - intros Hr. rewrite (Hstart Hr). split; [reflexivity|].
    set (s0 := set_idx s (Some 0)).
    destruct (start_playback_goes_on e s0) as (Hidx & Hw & Hp & _).
    split; [rewrite Hidx; reflexivity|].
    split; [apply (@went_on_same_log s s0); [reflexivity | exact Hw]|].
    split; [exact Hp|].
    assert (idx s0 = Some 0) as E0 by reflexivity.
    assert (playlist s0 = playlist s) as Epl by reflexivity.
    split; [|split].
    + intros path Hg Hload. rewrite <- Epl in Hg.
      destruct (@start_playback_loaded e s0 0 path E0 (Z.le_refl 0) Hg Hload)
        as (H1 & H2 & H3 & _).
      split; [exact H1|]. split; [exact H2 | exact H3].
    + intros path Hg Hload. rewrite <- Epl in Hg.
      apply (@start_playback_failed e s0 0 path E0 (Z.le_refl 0) Hg Hload).
    + destruct (playlist s) as [|p pl]; [congruence|]. exists p. reflexivity.
  - intros Hr. unfold next_song.
    destruct (playlist s) as [|p pl] eqn:Epl; [congruence|].
    rewrite Hsh, Hi. cbv zeta. cbn [playlist set_idx]. rewrite Epl.
    assert ((Py.len (p :: pl) <=? Py.len (p :: pl) - 1 + 1) = true) as ->
      by (apply Z.leb_le; lia).
    cbn [repeat set_idx].
    destruct (repeat s); [| congruence |]; cbn; repeat split.
Qed.

Lemma next_song_on_last_index_witness :
  (idx (next_song env0 (cycle_repeat one_playing)) = Some 0 /\
   playback_of (next_song env0 (cycle_repeat one_playing)) = Playing /\
   issued (cycle_repeat one_playing) (next_song env0 (cycle_repeat one_playing))
     [Load "a.mp3"; Play None; SetVolume (vol_var env0)]) /\
  playback_of (next_song env0 one_playing) = Stopped.
Proof.
  split.
  - destruct (@next_song_on_last_index env0 (cycle_repeat one_playing))
      as [Hall _].
    + vm_compute. discriminate.
    + vm_compute. reflexivity.
    + vm_compute. reflexivity.
    + destruct Hall as (_ & H1 & _ & _ & H4 & _); [vm_compute; reflexivity|].
      split; [exact H1|].
      destruct (H4 "a.mp3") as (H5 & H6 & _); try (vm_compute; reflexivity).
      split; [exact H5 | exact H6].
  - destruct (@next_song_on_last_index env0 one_playing) as [_ Hoff].
    + vm_compute. discriminate.
    + vm_compute. reflexivity.
    + vm_compute. reflexivity.
    + apply Hoff. vm_compute. discriminate.
Defined.

Lemma minus_one_mod (n : Z) : 0 < n -> (0 - 1) mod n = n - 1.
Proof.
  intros Hn. symmetry. apply (Z.mod_unique_pos (0 - 1) n (-1) (n - 1)); lia.
Qed.

(** C3.  With a non-empty playlist, shuffle off and the current index 0,
    [prev_song] returns normally.  Under a repeat mode other than all the
    current index stays 0 and playback is not stopped: no [Stop] is
    issued and a player that was playing still is.  Under repeat-all the
    current index becomes the last one, the length minus one. *)
Theorem prev_song_on_first_index (e : env) (s : player) :
  playlist s <> [] -> shuffle s = false -> idx s = Some 0 ->
  exists s',
    prev_song e s = Ok s' /\
    (repeat s <> all ->
     idx s' = Some 0 /\ went_on s s' /\ (playing s = true -> playing s' = true)) /\
    (repeat s = all -> idx s' = Some (Py.len (playlist s) - 1)).
Proof.
  intros Hne _ Hi. unfold prev_song, idx_or_0.
  destruct (playlist s) as [|p pl] eqn:Epl; [congruence|]. rewrite Hi.
  assert (0 < Py.len (p :: pl)) as Hlen
    by (pose proof (len_nonneg pl); unfold Py.len in *; cbn [Datatypes.length]; lia).
  destruct (repeat s) eqn:Er; eexists; (split; [reflexivity|]); split;
    try congruence; intros _;
    match goal with |- context [start_playback e ?x] => set (s0 := x) end;
    destruct (start_playback_goes_on e s0) as (Hidx & Hw & Hp & _).
  - split; [rewrite Hidx; reflexivity|].
    split; [apply (@went_on_same_log s s0); [reflexivity | exact Hw] | exact Hp].
  - rewrite Hidx. cbn [idx s0 set_idx]. now rewrite minus_one_mod.
  - split; [rewrite Hidx; reflexivity|].
    split; [apply (@went_on_same_log s s0); [reflexivity | exact Hw] | exact Hp].
Qed.

Lemma prev_song_on_first_index_witness :
  (exists s', prev_song env1 two_tracks = Ok s' /\ idx s' = Some 0) /\
  (exists s', prev_song env1 (cycle_repeat two_tracks) = Ok s' /\ idx s' = Some 1).
Proof.
  split.
  - destruct (@prev_song_on_first_index env1 two_tracks) as (s' & Hok & Hoff & _).
    + vm_compute. discriminate.
    + vm_compute. reflexivity.
    + vm_compute. reflexivity.
    + exists s'. split; [exact Hok|]. apply Hoff. vm_compute. discriminate.
  - destruct (@prev_song_on_first_index env1 (cycle_repeat two_tracks))
      as (s' & Hok & _ & Hall).
    + vm_compute. discriminate.
    + vm_compute. reflexivity.
    + vm_compute. reflexivity.
    + exists s'. split; [exact Hok|]. apply Hall. vm_compute. reflexivity.
Defined.

(** ** C10: [prev_song] with no current index *)

(** C10.  [prev_song] does not return normally from every player the
    application can reach.  With a non-empty playlist, no current index
    and repeat-all it raises [TypeError] (it subtracts from [self.idx] as
    it is), the player untouched; the other repeat modes guard the absent
    index with [self.idx or 0] and end on index 0.  Such a player is
    reached by adding two tracks, playing the first, removing it and
    switching repeat to all. *)
Theorem prev_song_raises_without_index :
  (forall (e : env) (s : player),
     playlist s <> [] -> idx s = None -> repeat s = all ->
     prev_song e s = Raise Py.TypeError s) /\
  (forall (e : env) (s : player),
     playlist s <> [] -> idx s = None -> repeat s <> all ->
     exists s', prev_song e s = Ok s' /\ idx s' = Some 0) /\
  (reachable stranded /\ playlist stranded = ["b.mp3"] /\
   idx stranded = None /\ repeat stranded = all).
Proof.
  split; [|split].
  - intros e s Hne Hi Hr. unfold prev_song.
    destruct (playlist s); [congruence|]. now rewrite Hr, Hi.
  - intros e s Hne Hi Hr. unfold prev_song, idx_or_0.
    destruct (playlist s); [congruence|]. rewrite Hi.
    destruct (repeat s); [|congruence|]; eexists; (split; [reflexivity|]);
      rewrite start_playback_idx; reflexivity.
  - split; [|repeat split; vm_compute; reflexivity].
    exists stranded_run, None. vm_compute. reflexivity.
Qed.

Lemma prev_song_raises_without_index_witness :
  prev_song env0 stranded = Raise Py.TypeError stranded /\
  (exists s', prev_song env0 lost_current = Ok s' /\ idx s' = Some 0).
Proof.
  destruct prev_song_raises_without_index as (Hall & Hoff & _). split.
  - apply (Hall env0 stranded).
    + vm_compute. discriminate.
    + vm_compute. reflexivity.
    + vm_compute. reflexivity.
  - apply (Hoff env0 lost_current).
    + vm_compute. discriminate.
    + vm_compute. reflexivity.
    + vm_compute. discriminate.
Defined.

(** ** C8: seeking while not playing *)

(** The guard of [_on_seek] is the [playing] flag: in every [Stopped]
    player a seek returns at once, the whole player (mixer log included)
    being what it was. *)
Lemma seek_when_stopped_is_noop (e : env) (val : float) (s : player) :
  playback_of s = Stopped -> _on_seek e val s = Ok s.
Proof.
  unfold playback_of, _on_seek. destruct (playing s); [|reflexivity].
  destruct (paused s); discriminate.
Qed.

Lemma seek_when_stopped_is_noop_witness :
  _on_seek env0 50%float two_tracks = Ok two_tracks.
Proof.
  apply (@seek_when_stopped_is_noop env0 50%float two_tracks).
  vm_compute. reflexivity.
Defined.

(** C8.  The code at the paused one-track player of 100 seconds, the
    slider dragged to 30%: [play_pause] has left [playing] set, so the
    guard [if not self.playing] lets the seek through.  [play(start=30.0)]
    goes to the mixer and 30.0 is recorded as the pending position, while
    the player stays [Paused]; the ticks that follow do nothing, so the
    pending position stays where it is. *)
Theorem seek_when_paused_acts :
  playback_of one_paused = Paused /\
  _on_seek env0 30%float one_paused <> Ok one_paused /\
  transport (after (_on_seek env0 30%float one_paused)) =
    transport one_paused ++ [Play (Some 30%float)] /\
  _manual_seek_pos one_paused = None /\
  _manual_seek_pos (after (_on_seek env0 30%float one_paused)) = Some 30%float /\
  playback_of (after (_on_seek env0 30%float one_paused)) = Paused /\
  _update_loop env0 (after (_on_seek env0 30%float one_paused)) =
    after (_on_seek env0 30%float one_paused).
Proof.
  split; [vm_compute; reflexivity|].
  split; [|repeat split; vm_compute; reflexivity].
  intros H. apply (f_equal (fun r => _manual_seek_pos (after r))) in H.
  vm_compute in H. discriminate H.
Qed.

(** ** A playing player has a current track *)

Lemma current_ok_same (s s' : player) :
  playlist s' = playlist s -> idx s' = idx s -> playing s' = playing s ->
  current_ok s -> current_ok s'.
Proof. unfold current_ok, has_track. intros -> -> ->. trivial. Qed.

Lemma start_playback_current_ok (e : env) (s : player) :
  current_ok s -> current_ok (start_playback e s).
Proof.
  intros H. destruct (start_playback_spec e s) as (Hs & _ & Hc).
  destruct Hs as (Hpl & Hi & _).
  destruct Hc as [(_ & _ & k & path & Ek & Hk & _)|(Hp & _)].
  - intros _. exists k. rewrite Hi, Hpl. auto.
  - eapply current_ok_same; eauto.
Qed.

Lemma nonempty_len {A : Type} (x : A) (l : list A) : 0 < Py.len (x :: l).
Proof. unfold Py.len. cbn [Datatypes.length]. lia. Qed.

Lemma next_song_current_ok (e : env) (s : player) :
  current_ok s -> current_ok (next_song e s).
Proof.
  intros H. unfold next_song.
  destruct (playlist s) as [|p pl] eqn:Epl; [exact H|].
  pose proof (nonempty_len p pl) as Hlen.
  destruct (shuffle s).
  - apply start_playback_current_ok. intros _. eexists. split; [reflexivity|].
    cbn [playlist set_idx]. rewrite Epl. apply Z.mod_pos_bound. exact Hlen.
  - destruct (idx s) as [i|] eqn:Ei.
    + cbv zeta. cbn [playlist repeat set_idx]. rewrite Epl.
      destruct (Py.len (p :: pl) <=? i + 1) eqn:E.
      * destruct (repeat s); try (intros Hp; discriminate Hp);
          apply start_playback_current_ok; intros _; exists 0;
          cbn [idx playlist set_idx]; rewrite Epl; split; [reflexivity | lia].
      * apply Z.leb_gt in E. apply start_playback_current_ok.
        intros Hp. cbn in Hp. destruct (H Hp) as (k & Ek & Hk).
        rewrite Ei in Ek. injection Ek as <-.
        exists (i + 1). cbn [idx playlist set_idx]. rewrite Epl.
        split; [reflexivity | lia].
    + apply start_playback_current_ok. intros _. exists 0.
      cbn [idx playlist set_idx]. rewrite Epl. split; [reflexivity | lia].
Qed.

Lemma prev_song_current_ok (e : env) (s : player) :
  current_ok s -> current_ok (after (prev_song e s)).
Proof.
  intros H. unfold prev_song.
  destruct (playlist s) as [|p pl] eqn:Epl; [exact H|].
  pose proof (nonempty_len p pl) as Hlen.
  assert (forall k, 0 <= k < Py.len (p :: pl) ->
            current_ok (start_playback e (set_idx s (Some k)))) as Hgo.
  { intros k Hk. apply start_playback_current_ok. intros _. exists k.
    cbn [idx playlist set_idx]. rewrite Epl. auto. }
  assert (current_ok (start_playback e
            (set_idx s (Some (Z.max 0 (idx_or_0 s - 1)))))) as Hclamp.
  { apply start_playback_current_ok. intros Hp. cbn in Hp.
    eexists. split; [reflexivity|]. cbn [playlist set_idx]. rewrite Epl.
    unfold idx_or_0. destruct (H Hp) as (k & -> & Hk). rewrite Epl in Hk. lia. }
  destruct (repeat s); cbn [after]; trivial.
  destruct (idx s) as [i|]; cbn [after]; [|exact H].
  apply Hgo. apply Z.mod_pos_bound. exact Hlen.
Qed.

Lemma first_index_range (test : string -> bool) (l : list string) (i0 i : Z) :
  first_index test l i0 = Some i -> i0 <= i < i0 + Py.len l.
Proof.
  revert i0. induction l as [|p r IH]; intros i0; cbn [first_index];
    [discriminate|].
  pose proof (len_nonneg r). unfold Py.len in *. cbn [Datatypes.length].
  destruct (test p).
  - intros H'; injection H' as <-. lia.
  - intros H'. apply IH in H'. lia.
Qed.

Lemma play_selected_current_ok (e : env) (name : option string) (s : player) :
  current_ok s -> current_ok (play_selected e name s).
Proof.
  intros H. unfold play_selected. cbv zeta.
  apply start_playback_current_ok.
  destruct name as [n|].
  - destruct (first_index _ _ _) as [i|] eqn:E; [|exact H].
    apply first_index_range in E. intros _. exists i. split; [reflexivity|].
    cbn [playlist set_idx]. lia.
  - destruct (idx s) eqn:Ei; [exact H|].
    destruct (playlist s) as [|p pl] eqn:Epl; [exact H|].
    intros _. exists 0. split; [reflexivity|].
    cbn [playlist set_idx]. rewrite Epl. pose proof (nonempty_len p pl). lia.
Qed.

Lemma _add_paths_frame (paths : list string) (s : player) :
  playing (snd (_add_paths paths s)) = playing s /\
  paused (snd (_add_paths paths s)) = paused s /\
  length (snd (_add_paths paths s)) = length s /\
  repeat (snd (_add_paths paths s)) = repeat s /\
  transport (snd (_add_paths paths s)) = transport s.
Proof.
  destruct (_add_paths_effect paths s) as (_ & _ & _ & _ & H). cbv zeta in H.
  repeat split;
    [apply (f_equal playing) in H | apply (f_equal paused) in H
    | apply (f_equal length) in H | apply (f_equal repeat) in H
    | apply (f_equal transport) in H]; exact H.
Qed.

Lemma _add_paths_current_ok (paths : list string) (s : player) :
  current_ok s -> current_ok (snd (_add_paths paths s)).
Proof.
  intros H Hp. rewrite (proj1 (_add_paths_frame paths s)) in Hp.
  destruct (H Hp) as (i & Ei & Hi).
  destruct (_add_paths_effect paths s) as (Hpl & Hidx & _). cbv zeta in Hpl, Hidx.
  exists i. rewrite Hpl, Hidx, Ei, len_app.
  pose proof (len_nonneg (appended paths (playlist s))).
  split; [reflexivity | lia].
Qed.

Lemma remove_selected_current_ok (sel : list nat) (s : player) :
  current_ok s -> current_ok (after (remove_selected sel s)).
Proof.
  intros H. destruct sel as [|row rest]; [exact H|].
  destruct (Z.of_nat row <? Py.len (playlist s)) eqn:Hrow.
  - apply Z.ltb_lt in Hrow.
    destruct (@remove_selected_cases row rest s Hrow) as (pl & _ & Hl & ->).
    destruct (idx s) as [k|] eqn:Ek.
    + destruct (k =? Z.of_nat row) eqn:E1;
        [intros Hp; discriminate Hp|]. apply Z.eqb_neq in E1.
      destruct (Z.of_nat row <? k) eqn:E2; cbn [after]; intros Hp;
        destruct (H Hp) as (k' & Ek' & Hk'); rewrite Ek in Ek';
        injection Ek' as <-;
        [apply Z.ltb_lt in E2; exists (k - 1)
        | apply Z.ltb_ge in E2; exists k; cbn [idx set_playlist]; rewrite Ek];
        (split; [reflexivity | cbn [playlist set_idx set_playlist]; lia]).
    + cbn [after]. intros Hp. destruct (H Hp) as (k' & Ek' & _). congruence.
  - apply Z.ltb_ge in Hrow. unfold remove_selected. cbv zeta.
    rewrite pop_past_end by lia. exact H.
Qed.

Lemma _on_seek_frame (e : env) (val : float) (s : player) :
  playlist (after (_on_seek e val s)) = playlist s /\
  idx (after (_on_seek e val s)) = idx s /\
  playing (after (_on_seek e val s)) = playing s /\
  paused (after (_on_seek e val s)) = paused s /\
  repeat (after (_on_seek e val s)) = repeat s /\
  shuffle (after (_on_seek e val s)) = shuffle s.
Proof.
  unfold _on_seek. cbv zeta. repeat break_match; cbn; repeat split; congruence.
Qed.

Lemma _update_loop_current_ok (e : env) (s : player) :
  current_ok s -> current_ok (_update_loop e s).
Proof.
  intros H. unfold _update_loop. cbv zeta.
  destruct (playing s && negb (paused s)); [|exact H].
  destruct (track_ended _ _).
  - destruct (repeat _) eqn:Er;
      try (apply next_song_current_ok; exact H); exact H.
  - destruct (Py.positive _); exact H.
Qed.

Lemma step_current_ok (e : env) (ev : event) (w : world) :
  current_ok (fst w) -> current_ok (fst (step e ev w)).
Proof.
  destruct w as [s f]. cbn [fst]. intros H.
  destruct ev; cbn [step fst].
  - apply _add_paths_current_ok; exact H.
  - apply remove_selected_current_ok; exact H.
  - intros Hp; discriminate Hp.
  - apply play_selected_current_ok; exact H.
  - unfold save_playlist. destruct (can_write e); exact H.
  - destruct (load_playlist_effect e s f) as [(_ & d & ->)|(paths & _ & Hc & _)];
      [exact H|].
    destruct Hc as (Hc & _). intros Hp. congruence.
  - unfold play_pause. destruct (playlist s) as [|p pl] eqn:Epl; [exact H|].
    destruct (playing s) eqn:Ep; cbn [negb].
    + destruct (paused s); exact H.
    + apply start_playback_current_ok.
      destruct (idx s); intros Hp; cbn in Hp; congruence.
  - intros Hp; discriminate Hp.
  - apply next_song_current_ok; exact H.
  - apply prev_song_current_ok; exact H.
  - destruct (_on_seek_frame e val s) as (H1 & H2 & H3 & _).
    eapply current_ok_same; eauto.
  - exact H.
  - exact H.
  - unfold cycle_repeat. destruct (repeat s); exact H.
  - apply _update_loop_current_ok; exact H.
Qed.

(** Whatever the application has done, a player with [playing] set has a
    current index that points into the playlist. *)
Lemma reachable_current_ok (s : player) : reachable s -> current_ok s.
Proof.
  intros (tr & f & Hrun).
  assert (forall tr w, current_ok (fst w) -> current_ok (fst (run tr w))) as Hr.
  { clear. induction tr as [|[e ev] tr IH]; intros w H; cbn [run];
      [exact H|]. apply IH, step_current_ok, H. }
  specialize (Hr tr (init, None)). rewrite Hrun in Hr.
  apply Hr. intros Hp; discriminate Hp.
Qed.

(** ** C5: the refresh tick at the end of a track *)

Lemma Playing_flags (s : player) :
  playback_of s = Playing <-> playing s = true /\ paused s = false.
Proof.
  unfold playback_of. destruct (playing s), (paused s); split;
    intros H; try discriminate; try (destruct H; discriminate); auto.
Qed.

(** C5.  In a [Playing] player in repeat-one whose known duration [D] is
    positive, a tick whose position (the pending manual position, else
    what the mixer reports) is at least [D - 0.4] issues one [play()]
    with no start offset and nothing else, and leaves the current index,
    the playlist and the state [Playing] as they were.  When the known
    duration is zero, no position counts as the end of the track, and a
    tick issues no call to the mixer and changes neither the current
    index nor the playback state. *)
Theorem tick_at_end_of_track (e : env) (s : player) :
  (playback_of s = Playing -> repeat s = one ->
   PrimFloat.ltb 0%float (length s) = true ->
   PrimFloat.leb (length s - 0x1.999999999999ap-2)%float (tick_pos e s) = true ->
   issued s (_update_loop e s) [Play None] /\
   idx (_update_loop e s) = idx s /\
   playlist (_update_loop e s) = playlist s /\
   playback_of (_update_loop e s) = Playing) /\
  (PrimFloat.eqb (length s) 0%float = true ->
   (forall pos, track_ended s pos = false) /\
   issued s (_update_loop e s) [] /\
   idx (_update_loop e s) = idx s /\
   playback_of (_update_loop e s) = playback_of s).
Proof.
  split.
  - intros Hst Hr Hd Hpos. apply Playing_flags in Hst as [Hp Hq].
    unfold _update_loop. rewrite Hp, Hq. cbv zeta. cbn [andb negb].
    assert (track_ended (set_manual_seek_pos s None) (clamp0 (tick_pos e s)) = true)
      as ->.
    { unfold track_ended. cbn [length set_manual_seek_pos].
      rewrite (above_zero_truthy Hd), (leb_clamp0 Hpos). reflexivity. }
    cbn [repeat set_manual_seek_pos]. rewrite Hr.
    unfold issued, playback_of. cbn. rewrite Hp, Hq. repeat split.
  - intros Hz.
    assert (forall pos, track_ended s pos = false) as Hne.
    { intros pos. unfold track_ended, Py.truthy. now rewrite Hz. }
    split; [exact Hne|].
    unfold _update_loop. cbv zeta.
    destruct (playing s && negb (paused s));
      [|unfold issued; rewrite app_nil_r; repeat split].
    assert (track_ended (set_manual_seek_pos s None) (clamp0 (tick_pos e s)) = false)
      as -> by apply Hne.
    assert (Py.positive (length (set_manual_seek_pos s None)) = false) as ->.
    { unfold Py.positive, Py.truthy. cbn [length set_manual_seek_pos].
      now rewrite Hz. }
    unfold issued. cbn. rewrite app_nil_r. repeat split.
Qed.

Lemma tick_at_end_of_track_witness :
  (issued one_repeating (_update_loop near_end one_repeating) [Play None] /\
   idx (_update_loop near_end one_repeating) = idx one_repeating /\
   playlist (_update_loop near_end one_repeating) = playlist one_repeating /\
   playback_of (_update_loop near_end one_repeating) = Playing) /\
  (issued one_unknown (_update_loop near_end one_unknown) [] /\
   idx (_update_loop near_end one_unknown) = idx one_unknown /\
   playback_of (_update_loop near_end one_unknown) = Playing).
Proof.
  split.
  - apply (proj1 (tick_at_end_of_track near_end one_repeating));
      vm_compute; reflexivity.
  - destruct (proj2 (tick_at_end_of_track near_end one_unknown))
      as (_ & H1 & H2 & H3); [vm_compute; reflexivity|].
    split; [exact H1|]. split; [exact H2|]. rewrite H3.
    vm_compute. reflexivity.
Defined.

(** ** C4: a seek and the tick after it *)

Lemma _update_loop_manual (e : env) (s : player) :
  playback_of s = Playing -> _manual_seek_pos (_update_loop e s) = None.
Proof.
  intros Hst. apply Playing_flags in Hst as [Hp Hq].
  unfold _update_loop. rewrite Hp, Hq. cbv zeta. cbn [andb negb].
  destruct (track_ended _ _).
  - destruct (repeat _); rewrite ?next_song_manual; reflexivity.
  - destruct (Py.positive _); reflexivity.
Qed.

Lemma _update_loop_display (e : env) (s : player) :
  playback_of s = Playing ->
  track_ended s (clamp0 (tick_pos e s)) = false ->
  curr_lbl (_update_loop e s) = format_time (clamp0 (tick_pos e s)).
Proof.
  intros Hst Hte. apply Playing_flags in Hst as [Hp Hq].
  unfold _update_loop. rewrite Hp, Hq. cbv zeta. cbn [andb negb].
  assert (track_ended (set_manual_seek_pos s None) (clamp0 (tick_pos e s)) = false)
    as -> by exact Hte.
  destruct (Py.positive _); reflexivity.
Qed.

(** What a seek does in a player that plays a track of known duration. *)
Lemma _on_seek_playing (e : env) (val : float) (s : player) :
  playing s = true -> has_track s -> PrimFloat.ltb 0%float (length s) = true ->
  exists s1,
    _on_seek e val s = Ok s1 /\
    _manual_seek_pos s1 = Some (val / 100 * length s)%float /\
    issued s s1 [Play (Some (val / 100 * length s)%float)] /\
    curr_lbl s1 = format_time (val / 100 * length s)%float.
Proof.
  intros Hp (i & Ei & Hi) Hd.
  destruct (getitem_in_range (playlist s) Hi) as (path & Hg & _).
  unfold _on_seek. rewrite Hp, Ei. cbn [negb]. cbv zeta.
  assert ((Py.len (playlist s) <=? i) = false) as -> by (apply Z.leb_gt; lia).
  rewrite Hg, (above_zero_positive Hd), (above_zero_positive Hd).
  eexists. split; [reflexivity|].
  destruct (Py.positive (get_length_fallback e path));
    repeat break_match; cbn; repeat split.
Qed.

(** [start_playback] keeps a [Playing] player [Playing] and its label of
    the elapsed time as it is. *)
Lemma start_playback_label (e : env) (s : player) :
  curr_lbl (start_playback e s) = curr_lbl s /\
  (playback_of s = Playing -> playback_of (start_playback e s) = Playing).
Proof.
  destruct (start_playback_spec e s) as (Hs & _ & Hc). cbv zeta in Hs, Hc.
  split; [apply Hs|]. intros Hst. apply Playing_flags in Hst as [Hp Hq].
  apply Playing_flags.
  destruct Hc as [(H1 & H2 & _)|(H1 & H2 & _)]; split; congruence.
Qed.

(** [next_song] leaves the label of the elapsed time alone, unless it
    stops playback: that it does with shuffle off and repeat not all, on
    running off the end of the playlist. *)
Lemma next_song_label (e : env) (s : player) :
  (curr_lbl (next_song e s) = curr_lbl s /\
   (playback_of s = Playing -> playback_of (next_song e s) = Playing)) \/
  (playback_of (next_song e s) = Stopped /\ curr_lbl (next_song e s) = "00:00" /\
   shuffle s = false /\ repeat s <> all /\
   exists i, idx s = Some i /\ Py.len (playlist s) <= i + 1).
Proof.
  unfold next_song. destruct (playlist s) as [|p pl] eqn:Epl; [left; auto|].
  destruct (shuffle s) eqn:Esh.
  { left. cbv zeta. match goal with
      | |- context [start_playback e ?x] => exact (start_playback_label e x)
      end. }
  destruct (idx s) as [i|] eqn:Ei.
  - cbv zeta. cbn [playlist set_idx repeat]. rewrite Epl.
    destruct (Py.len (p :: pl) <=? i + 1) eqn:El.
    + destruct (repeat s) eqn:Er.
      * right. cbn. repeat split; try discriminate.
        exists i. split; [reflexivity | apply Z.leb_le; exact El].
      * left. match goal with
      | |- context [start_playback e ?x] => exact (start_playback_label e x)
      end.
      * right. cbn. repeat split; try discriminate.
        exists i. split; [reflexivity | apply Z.leb_le; exact El].
    + left. match goal with
      | |- context [start_playback e ?x] => exact (start_playback_label e x)
      end.
  - left. match goal with
      | |- context [start_playback e ?x] => exact (start_playback_label e x)
      end.
Qed.

(** A tick of a [Playing] player that takes the position for the end of
    the track leaves the label alone, unless it stops playback. *)
Lemma _update_loop_ended (e : env) (s : player) :
  playback_of s = Playing ->
  track_ended s (clamp0 (tick_pos e s)) = true ->
  (playback_of (_update_loop e s) = Playing /\
   curr_lbl (_update_loop e s) = curr_lbl s) \/
  (playback_of (_update_loop e s) = Stopped /\
   curr_lbl (_update_loop e s) = "00:00" /\
   shuffle s = false /\ repeat s = off /\
   exists i, idx s = Some i /\ Py.len (playlist s) <= i + 1).
Proof.
  intros Hst Hte. pose proof (proj1 (Playing_flags s) Hst) as [Hp Hq].
  unfold _update_loop. rewrite Hp, Hq. cbv zeta. cbn [andb negb].
  assert (track_ended (set_manual_seek_pos s None) (clamp0 (tick_pos e s)) = true)
    as -> by exact Hte.
  assert (playback_of (set_manual_seek_pos s None) = Playing) as Hst' by exact Hst.
  cbn [repeat set_manual_seek_pos].
  destruct (repeat s) eqn:Er.
  - destruct (next_song_label e (set_manual_seek_pos s None))
      as [(Hl & Hk)|(H1 & H2 & H3 & _ & H5)].
    + left. split; [apply Hk; exact Hst' | exact Hl].
    + right. repeat split; trivial.
  - destruct (next_song_label e (set_manual_seek_pos s None))
      as [(Hl & Hk)|(_ & _ & _ & H4 & _)].
    + left. split; [apply Hk; exact Hst' | exact Hl].
    + exfalso. apply H4. exact Er.
  - left. split; [exact Hst | reflexivity].
Qed.

(** C4, as the code has it.  Let the application be in a [Playing] state
    with known positive duration [D].  A seek to the slider value [val],
    not negative (the fraction [f = val / 100]), restarts the mixer at
    [f * D] and records [f * D] as the pending manual position.  The next
    tick consumes it, whatever the mixer reports: the pending position is
    absent afterwards.  After that tick the label of the elapsed time
    shows [f * D] and the player is [Playing], with one exception: when
    the tick stops playback the label shows "00:00".  The tick stops
    playback only when [f * D] is within 0.4 seconds of the end of the
    track (the duration being the one the seek has re-resolved), shuffle
    is off, repeat is off and the track is the last of the playlist. *)
Theorem seek_then_tick (e e' : env) (val : float) (s : player) :
  reachable s -> playback_of s = Playing ->
  PrimFloat.ltb 0%float (length s) = true ->
  PrimFloat.leb 0%float val = true ->
  exists s1,
    _on_seek e val s = Ok s1 /\
    playback_of s1 = Playing /\
    issued s s1 [Play (Some (val / 100 * length s)%float)] /\
    _manual_seek_pos s1 = Some (val / 100 * length s)%float /\
    _manual_seek_pos (_update_loop e' s1) = None /\
    (track_ended s1 (val / 100 * length s)%float = false ->
     curr_lbl (_update_loop e' s1) = format_time (val / 100 * length s)%float) /\
    (playback_of (_update_loop e' s1) = Playing /\
     curr_lbl (_update_loop e' s1) = format_time (val / 100 * length s)%float \/
     playback_of (_update_loop e' s1) = Stopped /\
     curr_lbl (_update_loop e' s1) = "00:00" /\
     track_ended s1 (val / 100 * length s)%float = true /\
     shuffle s = false /\ repeat s = off /\
     idx s = Some (Py.len (playlist s) - 1)).
Proof.
  intros Hreach Hst Hd Hval.
  pose proof (proj1 (Playing_flags s) Hst) as [Hp Hq].
  pose proof (reachable_current_ok Hreach Hp) as Htrack.
  destruct (@_on_seek_playing e val s Hp Htrack Hd) as (s1 & Hseek & Hm & Hiss & Hlbl).
  destruct (_on_seek_frame e val s) as (F1 & F2 & F3 & F4 & F5 & F6).
  rewrite Hseek in F1, F2, F3, F4, F5, F6. cbn [after] in F1, F2, F3, F4, F5, F6.
  assert (playback_of s1 = Playing) as Hst1
    by (apply Playing_flags; split; congruence).
  assert (clamp0 (tick_pos e' s1) = (val / 100 * length s)%float) as Hpos.
  { unfold tick_pos, clamp0.
    rewrite Hm, (seek_target_not_negative Hval Hd). reflexivity. }
  assert (track_ended s1 (val / 100 * length s)%float = false ->
          curr_lbl (_update_loop e' s1) = format_time (val / 100 * length s)%float)
    as Hshow.
  { intros Hte. rewrite <- Hpos. apply _update_loop_display; [exact Hst1|].
    rewrite Hpos. exact Hte. }
  exists s1. repeat split; trivial.
  - apply _update_loop_manual; exact Hst1.
  - destruct (track_ended s1 (val / 100 * length s)%float) eqn:Hte.
    + rewrite <- Hpos in Hte.
      destruct (_update_loop_ended e' s1 Hst1 Hte)
        as [(H1 & H2)|(H1 & H2 & H3 & H4 & i & Hi & Hlen)].
      * left. split; [exact H1 | congruence].
      * right. repeat split; trivial; try congruence.
        destruct Htrack as (k & Ek & Hk).
        rewrite F2, Ek in Hi. injection Hi as <-. rewrite F1 in Hlen.
        rewrite Ek. f_equal. lia.
    + left. split; [|apply Hshow; reflexivity].
      apply Playing_flags.
      assert (forall x, playing (_update_loop e' x) = playing x /\
                        paused (_update_loop e' x) = paused x \/
                        track_ended x (clamp0 (tick_pos e' x)) = true) as Hfr.
      { intros x. unfold _update_loop.
        destruct (playing x && negb (paused x)); [|left; split; reflexivity].
        cbv zeta.
        destruct (track_ended (set_manual_seek_pos x None) (clamp0 (tick_pos e' x)))
          eqn:E; [right; exact E|].
        left. destruct (Py.positive _); split; reflexivity. }
      destruct (Hfr s1) as [[G1 G2]|G]; [split; congruence|].
      rewrite Hpos in G. congruence.
Qed.

Lemma one_playing_reachable : reachable one_playing.
Proof.
  exists [(env0, AddPaths ["a.mp3"]); (env0, PlayPause)], None.
  vm_compute. reflexivity.
Qed.

Lemma two_playing_reachable : reachable (play_pause env0 two_tracks).
Proof.
  exists [(env0, AddPaths ["a.mp3"; "b.mp3"]); (env0, PlayPause)], None.
  vm_compute. reflexivity.
Qed.

Lemma seek_then_tick_witness :
  (exists s1,
     _on_seek env0 50%float one_playing = Ok s1 /\
     _manual_seek_pos s1 = Some 50%float /\
     _manual_seek_pos (_update_loop env1 s1) = None /\
     curr_lbl (_update_loop env1 s1) = "00:50") /\
  (exists s1,
     _on_seek env0 100%float (play_pause env0 two_tracks) = Ok s1 /\
     track_ended s1 100%float = true /\
     playback_of (_update_loop env0 s1) = Playing /\
     curr_lbl (_update_loop env0 s1) = "01:40").
Proof.
  split.
  - destruct (@seek_then_tick env0 env1 50%float one_playing)
      as (s1 & Hseek & _ & _ & Hm & Hone & Hshow & _).
    + exact one_playing_reachable.
    + vm_compute. reflexivity.
    + vm_compute. reflexivity.
    + vm_compute. reflexivity.
    + exists s1. split; [exact Hseek|]. split; [exact Hm|]. split; [exact Hone|].
      rewrite Hshow.
      * vm_compute. reflexivity.
      * vm_compute in Hseek. injection Hseek as <-. vm_compute. reflexivity.
  - destruct (@seek_then_tick env0 env0 100%float (play_pause env0 two_tracks))
      as (s1 & Hseek & _ & _ & _ & _ & _ & Hafter).
    + exact two_playing_reachable.
    + vm_compute. reflexivity.
    + vm_compute. reflexivity.
    + vm_compute. reflexivity.
    + exists s1. split; [exact Hseek|]. split.
      * vm_compute in Hseek. injection Hseek as <-. vm_compute. reflexivity.
      * destruct Hafter as [(H1 & H2)|(_ & _ & _ & _ & _ & H6)].
        -- split; [exact H1|]. rewrite H2. vm_compute. reflexivity.
        -- vm_compute in H6. discriminate H6.
Defined.

(** C4 as stated fails on the playing one-track player of 100 seconds,
    repeat off: a seek to 100% records the pending position 100, and the
    next tick takes it for the end of the track, stops playback and shows
    "00:00", not "01:40". *)
Lemma seek_to_the_end_then_tick_stops :
  playback_of one_playing = Playing /\
  length one_playing = 100%float /\
  _manual_seek_pos (after (_on_seek env0 100%float one_playing)) = Some 100%float /\
  format_time 100%float = "01:40" /\
  curr_lbl (_update_loop env1 (after (_on_seek env0 100%float one_playing))) = "00:00" /\
  curr_lbl (_update_loop env1 (after (_on_seek env0 100%float one_playing)))
    <> format_time (100 / 100 * length one_playing)%float /\
  playback_of (_update_loop env1 (after (_on_seek env0 100%float one_playing)))
    = Stopped.
Proof.
  repeat split; try (vm_compute; reflexivity).
  vm_compute. discriminate.
Qed.

(** ** C9: what [_add_paths] appends *)

(** C9, as the code has it.  [_add_paths paths] extends the playlist by
    [appended paths (playlist s)]: the paths of the input that are not
    empty and not in the playlist (exact string equality), in input
    order, each once.  The current index becomes 0 exactly when it was
    unset and something was appended, and is left alone otherwise; no
    other field changes.  The method returns nothing: the call evaluates
    to [None], and whether anything was added is known only to the local
    flag of the loop. *)
Theorem add_appends_fresh_paths (paths : list string) (s : player) :
  playlist (snd (_add_paths paths s)) =
    playlist s ++ appended paths (playlist s) /\
  (forall p, In p (appended paths (playlist s)) <->
             In p paths /\ p <> "" /\ ~ In p (playlist s)) /\
  NoDup (appended paths (playlist s)) /\
  idx (snd (_add_paths paths s)) =
    match idx s, appended paths (playlist s) with
    | None, _ :: _ => Some 0
    | i, _ => i
    end /\
  fst (_add_paths paths s) = Py.None_ /\
  snd (_add_paths_loop paths (playlist s) false) =
    match appended paths (playlist s) with [] => false | _ :: _ => true end /\
  set_idx (set_playlist (snd (_add_paths paths s)) (playlist s)) (idx s) = s.
Proof.
  destruct (_add_paths_effect paths s) as (H1 & H2 & H3 & H4 & H5).
  split; [exact H1|]. split; [intros p; apply appended_In|].
  split; [apply first_occ_NoDup|]. split; [exact H2|].
  split; [exact H3|]. split; [exact H4 | exact H5].
Qed.

(** C9 as stated fails on a fresh player.  Given [""], the empty path,
    which the playlist does not hold, is not appended, and the current
    index stays unset although the store was empty; given ["a.mp3"], the
    path is appended and the call evaluates to [None], not to [True]. *)
Lemma add_skips_empty_and_returns_none :
  (playlist (snd (_add_paths [""] init)) = [] /\
   idx (snd (_add_paths [""] init)) = None /\
   fst (_add_paths [""] init) = Py.None_) /\
  (playlist (snd (_add_paths ["a.mp3"] init)) = ["a.mp3"] /\
   fst (_add_paths ["a.mp3"] init) = Py.None_ /\
   fst (_add_paths ["a.mp3"] init) <> Py.Bool true).
Proof. repeat split; vm_compute; discriminate. Qed.

(** * Further properties of the code *)

(** ** Invariants of the running application *)

Lemma second_current_reachable : reachable second_current.
Proof.
  exists [(env0, AddPaths ["a.mp3"; "b.mp3"]); (env0, PlayPause);
          (env0, NextSong)], None.
  vm_compute. reflexivity.
Qed.

(** X1.  Whatever the user does (add, remove, clear, load, play, seek,
    ticks), the playlist of the application holds no path twice and no
    empty path. *)
Theorem playlist_stays_deduplicated (s : player) :
  reachable s -> NoDup (playlist s) /\ ~ In "" (playlist s).
Proof. intros H. exact (reachable_wf H). Qed.

Lemma playlist_stays_deduplicated_witness :
  NoDup (playlist second_current) /\ ~ In "" (playlist second_current).
Proof.
  apply (@playlist_stays_deduplicated second_current).
  exact second_current_reachable.
Defined.

Lemma flags_ok_same (s s' : player) :
  playing s' = playing s -> paused s' = paused s -> flags_ok s -> flags_ok s'.
Proof. unfold flags_ok. intros -> ->. trivial. Qed.

Lemma start_playback_flags_ok (e : env) (s : player) :
  flags_ok s -> flags_ok (start_playback e s).
Proof.
  intros H. destruct (start_playback_spec e s) as (_ & _ & Hc).
  destruct Hc as [(Hp & _)|(Hp & Hq & _)].
  - intros Hf. congruence.
  - eapply flags_ok_same; eauto.
Qed.

Lemma stop_song_flags_ok (s : player) : flags_ok (stop_song s).
Proof. intros _. reflexivity. Qed.

Lemma next_song_flags_ok (e : env) (s : player) :
  flags_ok s -> flags_ok (next_song e s).
Proof.
  intros H. unfold next_song. cbv zeta.
  repeat break_match; trivial;
    try apply stop_song_flags_ok; apply start_playback_flags_ok; exact H.
Qed.

Lemma prev_song_flags_ok (e : env) (s : player) :
  flags_ok s -> flags_ok (after (prev_song e s)).
Proof.
  intros H. unfold prev_song.
  repeat break_match; cbn [after]; trivial;
    apply start_playback_flags_ok; exact H.
Qed.

Lemma remove_selected_flags_ok (sel : list nat) (s : player) :
  flags_ok s -> flags_ok (after (remove_selected sel s)).
Proof.
  intros H. unfold remove_selected. cbv zeta.
  repeat break_match; cbn [after]; trivial; intros _; reflexivity.
Qed.

Lemma _add_paths_flags_ok (paths : list string) (s : player) :
  flags_ok s -> flags_ok (snd (_add_paths paths s)).
Proof.
  destruct (_add_paths_frame paths s) as (Hp & Hq & _).
  apply flags_ok_same; assumption.
Qed.

Lemma _update_loop_flags_ok (e : env) (s : player) :
  flags_ok s -> flags_ok (_update_loop e s).
Proof.
  intros H. unfold _update_loop. cbv zeta.
  destruct (playing s && negb (paused s)); [|exact H].
  destruct (track_ended _ _).
  - destruct (repeat _); try (apply next_song_flags_ok; exact H); exact H.
  - destruct (Py.positive _); exact H.
Qed.

Lemma step_flags_ok (e : env) (ev : event) (w : world) :
  flags_ok (fst w) -> flags_ok (fst (step e ev w)).
Proof.
  destruct w as [s f]. cbn [fst]. intros H.
  destruct ev; cbn [step fst].
  - apply _add_paths_flags_ok; exact H.
  - apply remove_selected_flags_ok; exact H.
  - intros _. reflexivity.
  - unfold play_selected. cbv zeta. apply start_playback_flags_ok.
    repeat break_match; exact H.
  - unfold save_playlist. destruct (can_write e); exact H.
  - destruct (load_playlist_effect e s f) as [(_ & d & ->)|(paths & _ & Hc & _)];
      [exact H|].
    destruct Hc as (_ & Hq & _). intros _. exact Hq.
  - unfold play_pause. destruct (playlist s); [exact H|].
    destruct (playing s) eqn:Ep; cbn [negb].
    + destruct (paused s); intros Hf; cbn in Hf; congruence.
    + apply start_playback_flags_ok. destruct (idx s); exact H.
  - apply stop_song_flags_ok.
  - apply next_song_flags_ok; exact H.
  - apply prev_song_flags_ok; exact H.
  - destruct (_on_seek_frame e val s) as (_ & _ & H3 & H4 & _).
    eapply flags_ok_same; eauto.
  - exact H.
  - exact H.
  - unfold cycle_repeat. destruct (repeat s); exact H.
  - apply _update_loop_flags_ok; exact H.
Qed.

Lemma run_flags_ok (tr : list (env * event)) (w : world) :
  flags_ok (fst w) -> flags_ok (fst (run tr w)).
Proof.
  revert w. induction tr as [|[e ev] tr IH]; intros w H; cbn [run];
    [exact H|]. apply IH, step_flags_ok, H.
Qed.

(** X2.  The application is never "paused but not playing": in every
    player it can reach, [playing = False] implies [paused = False], so
    the two flags always encode one of Stopped, Playing, Paused. *)
Theorem stopped_is_never_paused (s : player) :
  reachable s -> playing s = false -> paused s = false.
Proof.
  intros (tr & f & Hrun).
  pose proof (run_flags_ok tr (init, None)) as H. rewrite Hrun in H.
  apply H. intros _. reflexivity.
Qed.

Lemma stopped_is_never_paused_witness : paused two_tracks = false.
Proof.
  apply (@stopped_is_never_paused two_tracks).
  - exact two_tracks_reachable.
  - vm_compute. reflexivity.
Defined.

(** X3.  In every player the application can reach, a seek returns
    normally: [self.playlist[self.idx]] in [_on_seek] never raises
    [IndexError], because a player with [playing] set has a current
    index inside the playlist. *)
Theorem seek_never_raises (e : env) (val : float) (s : player) :
  reachable s -> exists s', _on_seek e val s = Ok s'.
Proof.
  intros Hreach. unfold _on_seek. cbv zeta.
  destruct (playing s) eqn:Hp; cbn [negb]; [|eexists; reflexivity].
  destruct (reachable_current_ok Hreach Hp) as (i & Ei & Hi).
  rewrite Ei.
  assert ((Py.len (playlist s) <=? i) = false) as -> by (apply Z.leb_gt; lia).
  destruct (getitem_in_range (playlist s) Hi) as (path & -> & _).
  eexists. reflexivity.
Qed.

Lemma seek_never_raises_witness :
  exists s', _on_seek env1 70%float second_current = Ok s'.
Proof.
  apply (@seek_never_raises env1 70%float second_current).
  exact second_current_reachable.
Defined.

Lemma start_playback_idx_nonneg (e : env) (s : player) :
  idx_nonneg s -> idx_nonneg (start_playback e s).
Proof. unfold idx_nonneg. rewrite start_playback_idx. trivial. Qed.

Lemma set_idx_nonneg (s : player) (k : Z) : 0 <= k -> idx_nonneg (set_idx s (Some k)).
Proof. intros Hk i Hi. cbn in Hi. injection Hi as <-. exact Hk. Qed.

Lemma first_index_nonneg (test : string -> bool) (l : list string) (i : Z) :
  first_index test l 0 = Some i -> 0 <= i.
Proof. intros H. apply first_index_range in H. lia. Qed.

Lemma next_song_idx_nonneg (e : env) (s : player) :
  idx_nonneg s -> idx_nonneg (next_song e s).
Proof.
  intros H. unfold next_song. cbv zeta.
  destruct (playlist s) as [|p pl] eqn:Epl; [exact H|].
  pose proof (nonempty_len p pl) as Hlen.
  destruct (shuffle s).
  - apply start_playback_idx_nonneg, set_idx_nonneg.
    apply Z.mod_pos_bound. exact Hlen.
  - destruct (idx s) as [i|] eqn:Ei.
    + pose proof (H i Ei) as Hi.
      destruct (_ <=? _); [destruct (repeat _)|];
        try apply start_playback_idx_nonneg; try apply set_idx_nonneg;
        try lia; intros j Hj; cbn in Hj; injection Hj as <-; lia.
    + apply start_playback_idx_nonneg, set_idx_nonneg. lia.
Qed.

Lemma step_idx_nonneg (e : env) (ev : event) (w : world) :
  idx_nonneg (fst w) -> idx_nonneg (fst (step e ev w)).
Proof.
  destruct w as [s f]. cbn [fst]. intros H.
  destruct ev; cbn [step fst].
  - destruct (_add_paths_effect paths s) as (_ & Hi & _). cbv zeta in Hi.
    intros i Hs. rewrite Hi in Hs. destruct (idx s) eqn:E.
    + apply (H i). congruence.
    + destruct (appended _ _); [discriminate|]. injection Hs as <-. lia.
  - unfold remove_selected. cbv zeta.
    destruct sel as [|row rest]; [exact H|].
    destruct (Py.pop _ _); [|exact H].
    destruct (idx_is _ _); [intros i Hi; discriminate Hi|].
    cbn [idx set_playlist]. destruct (idx s) as [k|] eqn:Ek; [|intros i Hi; cbn in Hi; congruence].
    destruct (Z.of_nat row <? k) eqn:E; cbn [after].
    + apply Z.ltb_lt in E. apply set_idx_nonneg. lia.
    + intros i Hi. cbn in Hi. apply H. congruence.
  - intros i Hi. discriminate Hi.
  - unfold play_selected. cbv zeta. apply start_playback_idx_nonneg.
    destruct name as [n|].
    + destruct (first_index _ _ _) eqn:E; [|exact H].
      apply set_idx_nonneg. eapply first_index_nonneg; eauto.
    + destruct (idx s); [exact H|]. destruct (playlist s); [exact H|].
      apply set_idx_nonneg. lia.
  - unfold save_playlist. destruct (can_write e); exact H.
  - destruct (load_playlist_effect e s f)
      as [(_ & d & ->)|(paths & _ & _ & [Hi|[Hi _]])]; [exact H| |];
      intros i Hs; rewrite Hi in Hs; [discriminate | injection Hs as <-; lia].
  - unfold play_pause. destruct (playlist s); [exact H|].
    destruct (negb (playing s)).
    + apply start_playback_idx_nonneg. destruct (idx s) eqn:E; [exact H|].
      apply set_idx_nonneg. lia.
    + destruct (paused s); exact H.
  - exact H.
  - apply next_song_idx_nonneg; exact H.
  - unfold prev_song. destruct (playlist s) as [|p pl] eqn:Epl; [exact H|].
    pose proof (nonempty_len p pl) as Hlen.
    destruct (repeat s); cbn [after];
      try (apply start_playback_idx_nonneg, set_idx_nonneg; lia).
    destruct (idx s); cbn [after]; [|exact H].
    apply start_playback_idx_nonneg, set_idx_nonneg.
    apply Z.mod_pos_bound. exact Hlen.
  - destruct (_on_seek_frame e val s) as (_ & H2 & _).
    unfold idx_nonneg. rewrite H2. exact H.
  - exact H.
  - exact H.
  - unfold cycle_repeat. destruct (repeat s); exact H.
  - unfold _update_loop. cbv zeta.
    destruct (playing s && negb (paused s)); [|exact H].
    destruct (track_ended _ _).
    + destruct (repeat _); try (apply next_song_idx_nonneg; exact H); exact H.
    + destruct (Py.positive _); exact H.
Qed.

(** X4.  The current index of the application is never negative, so no
    [self.playlist[self.idx]] ever reaches Python's from-the-end
    indexing. *)
Theorem index_never_negative (s : player) (i : Z) :
  reachable s -> idx s = Some i -> 0 <= i.
Proof.
  intros (tr & f & Hrun).
  assert (forall tr w, idx_nonneg (fst w) -> idx_nonneg (fst (run tr w))) as Hr.
  { clear. induction tr as [|[e ev] tr IH]; intros w H; cbn [run];
      [exact H|]. apply IH, step_idx_nonneg, H. }
  specialize (Hr tr (init, None)). rewrite Hrun in Hr.
  apply Hr. intros j Hj. discriminate Hj.
Qed.

Lemma index_never_negative_witness : 0 <= 1.
Proof.
  apply (@index_never_negative second_current 1).
  - exact second_current_reachable.
  - vm_compute. reflexivity.
Defined.

(** ** Transport controls *)

(** X5.  On an empty playlist Play/Pause, Next, Previous and a double
    click return at once: the player, its mixer log included, is what it
    was. *)
Theorem controls_do_nothing_on_empty_playlist
  (e : env) (name : option string) (s : player) :
  playlist s = [] ->
  play_pause e s = s /\ next_song e s = s /\ prev_song e s = Ok s /\
  play_selected e name s = s.
Proof.
  intros Hpl. unfold play_pause, next_song, prev_song. rewrite Hpl.
  repeat split.
  unfold play_selected. cbv zeta. rewrite Hpl. cbn [first_index].
  assert (start_playback e s = s) as Hs.
  { unfold start_playback, _load_track. destruct (idx s) as [i|]; [|reflexivity].
    rewrite Hpl.
    assert (((i <? 0) || (Py.len (@nil string) <=? i)) = true) as ->.
    { destruct (i <? 0) eqn:E; [reflexivity|]. apply Z.ltb_ge in E.
      apply Z.leb_le. exact E. }
    reflexivity. }
  destruct name; destruct (idx s); exact Hs.
Qed.

Lemma controls_do_nothing_on_empty_playlist_witness :
  play_pause env0 init = init /\ next_song env0 init = init /\
  prev_song env0 init = Ok init /\ play_selected env0 (Some "a.mp3") init = init.
Proof.
  apply (@controls_do_nothing_on_empty_playlist env0 (Some "a.mp3") init).
  reflexivity.
Defined.

(** X6.  In a [Playing] player Play/Pause sends [pause()] and the player
    is [Paused]; while it is paused a refresh tick changes nothing; a
    second Play/Pause sends [unpause()], and the player is the one before
    the pause but for the two calls in the mixer log and the button
    text. *)
Theorem pause_then_resume (e e' e'' : env) (s : player) :
  playback_of s = Playing -> playlist s <> [] ->
  playback_of (play_pause e s) = Paused /\
  issued s (play_pause e s) [Pause] /\
  _update_loop e'' (play_pause e s) = play_pause e s /\
  play_pause e' (play_pause e s) =
    set_play_btn (mixer (mixer s Pause) Unpause) PauseGlyph.
Proof.
  intros Hst Hne. apply Playing_flags in Hst as [Hp Hq].
  destruct s as [pl i pg pa le sh rp ms cl tl sl pb tr dl].
  cbn in Hp, Hq, Hne. subst pg pa.
  destruct pl as [|p pl]; [congruence|].
  unfold play_pause, playback_of, issued, _update_loop. cbn.
  repeat split.
Qed.

Lemma pause_then_resume_witness :
  playback_of (play_pause env1 one_playing) = Paused /\
  play_pause env0 (play_pause env1 one_playing) =
    set_play_btn (mixer (mixer one_playing Pause) Unpause) PauseGlyph.
Proof.
  destruct (@pause_then_resume env1 env0 near_end one_playing)
    as (H1 & _ & _ & H4).
  - vm_compute. reflexivity.
  - vm_compute. discriminate.
  - split; [exact H1 | exact H4].
Defined.

(** X7.  The mode buttons only change their mode.  [cycle_repeat] goes
    off, all, one and back to off, so three presses restore the player;
    two presses of [toggle_shuffle] restore it; neither touches anything
    but its own field. *)
Theorem mode_buttons_cycle (s : player) :
  repeat (cycle_repeat s) =
    match repeat s with off => all | all => one | one => off end /\
  cycle_repeat (cycle_repeat (cycle_repeat s)) = s /\
  set_repeat (cycle_repeat s) (repeat s) = s /\
  shuffle (toggle_shuffle s) = negb (shuffle s) /\
  toggle_shuffle (toggle_shuffle s) = s /\
  set_shuffle (toggle_shuffle s) (shuffle s) = s.
Proof.
  destruct s as [pl i pg pa le sh [] ms cl tl sl pb tr dl];
    destruct sh; cbn; repeat split.
Qed.

(** ** Loading and starting a track *)

(** X8.  When the current track cannot be loaded, [start_playback] shows
    the "Load Error" box and changes nothing else: the [load] attempt is
    the only call to the mixer, and index, flags, known duration and
    labels are those of before. *)
Theorem failed_load_changes_nothing
  (e : env) (s : player) (k : Z) (path : string) :
  idx s = Some k -> 0 <= k -> Py.getitem (playlist s) k = Some path ->
  music_load e path = false ->
  start_playback e s = messagebox (mixer s (Load path)) (ShowError "Load Error").
Proof.
  intros Ek Hk Hg Hl. unfold start_playback, _load_track. rewrite Ek.
  assert (k < Py.len (playlist s)) as Hlt.
  { unfold Py.getitem in Hg. cbv zeta in Hg.
    assert ((k <? 0) = false) as E by (apply Z.ltb_ge; lia).
    rewrite !E in Hg. cbn [orb] in Hg.
    destruct (Py.len (playlist s) <=? k) eqn:E2; [discriminate|].
    apply Z.leb_gt in E2. exact E2. }
  assert (((k <? 0) || (Py.len (playlist s) <=? k)) = false) as ->.
  { apply orb_false_iff. split; [apply Z.ltb_ge | apply Z.leb_gt]; lia. }
  rewrite Hg. cbv zeta. rewrite Hl. reflexivity.
Qed.

Lemma failed_load_changes_nothing_witness :
  start_playback env1 two_tracks =
    messagebox (mixer two_tracks (Load "a.mp3")) (ShowError "Load Error").
Proof.
  apply (@failed_load_changes_nothing env1 two_tracks 0 "a.mp3").
  - vm_compute. reflexivity.
  - lia.
  - vm_compute. reflexivity.
  - vm_compute. reflexivity.
Defined.

(** X9.  When the current track loads, [start_playback] issues exactly
    [load], [play()] and [set_volume] with the volume slider's value, and
    the player is [Playing] with the probed duration (0 when unknown),
    the total label to match and the slider at 0.  The current index, the
    playlist, the elapsed-time label and a pending seek position are not
    touched. *)
Theorem started_track (e : env) (s : player) (k : Z) (path : string) :
  idx s = Some k -> 0 <= k -> Py.getitem (playlist s) k = Some path ->
  music_load e path = true ->
  playback_of (start_playback e s) = Playing /\
  issued s (start_playback e s) [Load path; Play None; SetVolume (vol_var e)] /\
  length (start_playback e s) = Py.or_zero (get_length_fallback e path) /\
  total_lbl (start_playback e s) =
    (if Py.positive (Py.or_zero (get_length_fallback e path))
     then ("/ " ++ format_time (Py.or_zero (get_length_fallback e path)))%string
     else "/ 00:00") /\
  slider (start_playback e s) = 0%float /\
  same_settings s (start_playback e s).
Proof. apply start_playback_loaded. Qed.

Lemma started_track_witness :
  playback_of (start_playback env0 two_tracks) = Playing /\
  transport (start_playback env0 two_tracks) =
    [Load "a.mp3"; Play None; SetVolume 0x1.b333333333333p-1%float] /\
  total_lbl (start_playback env0 two_tracks) = "/ 01:40".
Proof.
  destruct (@started_track env0 two_tracks 0 "a.mp3")
    as (H1 & H2 & _ & H4 & _).
  - vm_compute. reflexivity.
  - lia.
  - vm_compute. reflexivity.
  - vm_compute. reflexivity.
  - split; [exact H1|]. split; [exact H2|]. rewrite H4.
    vm_compute. reflexivity.
Defined.

(** ** A pending seek position outlives a change of track *)

Lemma play_selected_manual (e : env) (name : option string) (s : player) :
  _manual_seek_pos (play_selected e name s) = _manual_seek_pos s.
Proof.
  unfold play_selected. cbv zeta. rewrite start_playback_manual.
  repeat break_match; reflexivity.
Qed.

Lemma prev_song_manual (e : env) (s : player) :
  _manual_seek_pos (after (prev_song e s)) = _manual_seek_pos s.
Proof.
  unfold prev_song. repeat break_match; cbn [after];
    rewrite ?start_playback_manual; reflexivity.
Qed.

Lemma play_pause_manual (e : env) (s : player) :
  _manual_seek_pos (play_pause e s) = _manual_seek_pos s.
Proof.
  unfold play_pause. repeat break_match;
    rewrite ?start_playback_manual; reflexivity.
Qed.

(** X10.  Only the refresh tick clears the pending seek position: Stop,
    Play/Pause, Next, Previous, a double click and [start_playback] leave
    [_manual_seek_pos] as it is.  So when the track changes between a
    seek and the next tick, that tick takes the position sought in the
    old track for the position in the new one, whatever the mixer
    reports, and shows it when it does not count as the end of the new
    track. *)
Theorem pending_seek_outlives_track_change
  (e e' : env) (name : option string) (s : player) (p : float) :
  _manual_seek_pos s = Some p ->
  (_manual_seek_pos (stop_song s) = Some p /\
   _manual_seek_pos (start_playback e s) = Some p /\
   _manual_seek_pos (play_pause e s) = Some p /\
   _manual_seek_pos (next_song e s) = Some p /\
   _manual_seek_pos (after (prev_song e s)) = Some p /\
   _manual_seek_pos (play_selected e name s) = Some p) /\
  tick_pos e' (next_song e s) = p /\
  (playback_of (next_song e s) = Playing ->
   PrimFloat.ltb p 0%float = false ->
   track_ended (next_song e s) p = false ->
   curr_lbl (_update_loop e' (next_song e s)) = format_time p).
Proof.
  intros Hm. split; [|split].
  - rewrite start_playback_manual, play_pause_manual, next_song_manual,
      prev_song_manual, play_selected_manual. cbn. repeat split; exact Hm.
  - unfold tick_pos. now rewrite next_song_manual, Hm.
  - intros Hst Hneg Hte.
    assert (clamp0 (tick_pos e' (next_song e s)) = p) as Hpos.
    { unfold tick_pos, clamp0. rewrite next_song_manual, Hm, Hneg. reflexivity. }
    rewrite <- Hpos. apply _update_loop_display; [exact Hst|].
    rewrite Hpos. exact Hte.
Qed.

Lemma pending_seek_outlives_track_change_witness :
  idx (next_song env0 sought) = Some 1 /\
  tick_pos env1 (next_song env0 sought) = 50%float /\
  curr_lbl (_update_loop env1 (next_song env0 sought)) = "00:50".
Proof.
  destruct (@pending_seek_outlives_track_change env0 env1 None sought 50%float)
    as (_ & Hpos & Hshow).
  - vm_compute. reflexivity.
  - split; [vm_compute; reflexivity|]. split; [exact Hpos|].
    rewrite Hshow; vm_compute; reflexivity.
Defined.

(** ** Running off the end of the playlist *)

(** X11.  When Next runs off the end of the playlist (shuffle off, repeat
    not all) playback stops and the current index is left one past where
    it was, outside the playlist.  In that player Play/Pause does
    nothing at all, since [_load_track] rejects the index, while Previous
    (the index being at least 0) steps back to the index before. *)
Theorem index_left_past_the_end (e e' : env) (s : player) (i : Z) :
  playlist s <> [] -> shuffle s = false -> repeat s <> all ->
  idx s = Some i -> 0 <= i -> Py.len (playlist s) <= i + 1 ->
  idx (next_song e s) = Some (i + 1) /\
  playback_of (next_song e s) = Stopped /\
  play_pause e' (next_song e s) = next_song e s /\
  idx (after (prev_song e' (next_song e s))) = Some i.
Proof.
  intros Hne Hsh Hr Hi H0 Hlen.
  assert (next_song e s = stop_song (set_idx s (Some (i + 1)))) as ->.
  { unfold next_song. destruct (playlist s) eqn:Epl; [congruence|].
    rewrite Hsh, Hi. cbv zeta. cbn [playlist set_idx repeat]. rewrite Epl.
    assert ((Py.len (s0 :: l) <=? i + 1) = true) as -> by (apply Z.leb_le; lia).
    destruct (repeat s); congruence. }
  split; [reflexivity|]. split; [reflexivity|]. split.
  - unfold play_pause. cbn [playlist stop_song set_curr_lbl set_slider
      set_play_btn set_paused set_playing mixer set_idx playing negb idx].
    destruct (playlist s) eqn:Epl; [congruence|].
    unfold start_playback, _load_track.
    cbn [idx playlist stop_song set_curr_lbl set_slider
      set_play_btn set_paused set_playing mixer set_idx]. rewrite Epl.
    assert (((i + 1 <? 0) || (Py.len (s0 :: l) <=? i + 1)) = true) as ->.
    { apply orb_true_iff. right. apply Z.leb_le. lia. }
    reflexivity.
  - unfold prev_song, idx_or_0.
    cbn [playlist repeat idx stop_song set_curr_lbl set_slider
      set_play_btn set_paused set_playing mixer set_idx].
    destruct (playlist s) eqn:Epl; [congruence|].
    destruct (repeat s); [|congruence|]; cbn [after];
      rewrite start_playback_idx; cbn [idx set_idx]; f_equal; lia.
Qed.

Lemma index_left_past_the_end_witness :
  idx (next_song env0 one_playing) = Some 1 /\
  playback_of (next_song env0 one_playing) = Stopped /\
  play_pause env0 (next_song env0 one_playing) = next_song env0 one_playing /\
  idx (after (prev_song env0 (next_song env0 one_playing))) = Some 0.
Proof.
  apply (@index_left_past_the_end env0 env0 one_playing 0).
  - vm_compute. discriminate.
  - vm_compute. reflexivity.
  - vm_compute. discriminate.
  - vm_compute. reflexivity.
  - lia.
  - vm_compute. discriminate.
Defined.

(** ** The tick that ends a track *)

(** X12.  In a [Playing] player with shuffle off and repeat not one,
    a tick whose position is within 0.4 seconds of the known positive
    duration moves on to the next entry of the playlist when there is
    one: the current index grows by one, the entry is loaded and played
    from its start with the volume re-applied, its duration becomes the
    known duration, and no seek position is pending. *)
Theorem tick_advances_to_next_track
  (e : env) (s : player) (i : Z) (path : string) :
  playback_of s = Playing -> shuffle s = false -> repeat s <> one ->
  idx s = Some i -> 0 <= i + 1 ->
  Py.getitem (playlist s) (i + 1) = Some path -> music_load e path = true ->
  PrimFloat.ltb 0%float (length s) = true ->
  PrimFloat.leb (length s - 0x1.999999999999ap-2)%float (tick_pos e s) = true ->
  idx (_update_loop e s) = Some (i + 1) /\
  playback_of (_update_loop e s) = Playing /\
  issued s (_update_loop e s) [Load path; Play None; SetVolume (vol_var e)] /\
  length (_update_loop e s) = Py.or_zero (get_length_fallback e path) /\
  _manual_seek_pos (_update_loop e s) = None.
Proof.
  intros Hst Hsh Hr Hi H0 Hg Hl Hd Hpos.
  pose proof (getitem_lt _ H0 Hg) as Hlt.
  pose proof (proj1 (Playing_flags s) Hst) as [Hp Hq].
  unfold _update_loop. rewrite Hp, Hq. cbv zeta. cbn [andb negb].
  assert (track_ended (set_manual_seek_pos s None) (clamp0 (tick_pos e s)) = true)
    as ->.
  { unfold track_ended. cbn [length set_manual_seek_pos].
    rewrite (above_zero_truthy Hd), (leb_clamp0 Hpos). reflexivity. }
  set (s1 := set_manual_seek_pos s None).
  assert (next_song e s1 = start_playback e (set_idx s1 (Some (i + 1)))) as Hn.
  { unfold next_song. cbn [playlist shuffle idx s1 set_manual_seek_pos].
    destruct (playlist s) eqn:Epl;
      [unfold Py.len in Hlt; cbn in Hlt; lia|].
    rewrite Hsh, Hi. cbv zeta. cbn [playlist set_idx set_manual_seek_pos].
    assert ((Py.len (playlist s1) <=? i + 1) = false) as ->
      by (apply Z.leb_gt; cbn [playlist s1 set_manual_seek_pos];
          rewrite Epl; lia).
    reflexivity. }
  assert (match repeat s1 with one => mixer s1 (Play None) | _ => next_song e s1 end
          = start_playback e (set_idx s1 (Some (i + 1)))) as ->.
  { cbn [repeat s1 set_manual_seek_pos]. destruct (repeat s); congruence. }
  destruct (@start_playback_loaded e (set_idx s1 (Some (i + 1))) (i + 1) path)
    as (H1 & H2 & H3 & _ & _ & Hs); trivial.
  destruct Hs as (_ & Hidx & _ & _ & Hm & _).
  repeat split; trivial.
Qed.

Lemma tick_advances_to_next_track_witness :
  idx (_update_loop near_end (play_pause env0 two_tracks)) = Some 1 /\
  playback_of (_update_loop near_end (play_pause env0 two_tracks)) = Playing /\
  issued (play_pause env0 two_tracks)
    (_update_loop near_end (play_pause env0 two_tracks))
    [Load "b.mp3"; Play None; SetVolume (vol_var near_end)] /\
  length (_update_loop near_end (play_pause env0 two_tracks)) =
    Py.or_zero (get_length_fallback near_end "b.mp3") /\
  _manual_seek_pos (_update_loop near_end (play_pause env0 two_tracks)) = None.
Proof.
  apply (@tick_advances_to_next_track near_end (play_pause env0 two_tracks) 0 "b.mp3").
  - vm_compute. reflexivity.
  - vm_compute. reflexivity.
  - vm_compute. discriminate.
  - vm_compute. reflexivity.
  - lia.
  - vm_compute. reflexivity.
  - vm_compute. reflexivity.
  - vm_compute. reflexivity.
  - vm_compute. reflexivity.
Defined.

(** ** Seeking when the duration is not known *)

(** X13.  Take a player with [playing] set, a current track and no
    known positive duration.  A seek asks the probe again.  If the probe
    still has no positive duration the slider value itself is taken as
    the position in seconds: the mixer restarts at [val], [val] is the
    pending position, and the known duration stays.  If the probe now
    reports [L > 0], the position is [(val / 100) * L] and [L] becomes
    the known duration. *)
Theorem seek_with_unknown_duration
  (e : env) (val : float) (s : player) (i : Z) (path : string) :
  playing s = true -> idx s = Some i -> 0 <= i ->
  Py.getitem (playlist s) i = Some path -> Py.positive (length s) = false ->
  exists s1,
    _on_seek e val s = Ok s1 /\
    (Py.positive (get_length_fallback e path) = false ->
     issued s s1 [Play (Some val)] /\ _manual_seek_pos s1 = Some val /\
     length s1 = length s /\ slider s1 = val /\ curr_lbl s1 = format_time val) /\
    (Py.positive (get_length_fallback e path) = true ->
     issued s s1 [Play (Some (val / 100 * get_length_fallback e path)%float)] /\
     _manual_seek_pos s1 = Some (val / 100 * get_length_fallback e path)%float /\
     length s1 = get_length_fallback e path).
Proof.
  intros Hp Hi H0 Hg Hunk. pose proof (getitem_lt _ H0 Hg) as Hlt.
  unfold _on_seek. rewrite Hp, Hi. cbn [negb]. cbv zeta.
  assert ((Py.len (playlist s) <=? i) = false) as -> by (apply Z.leb_gt; lia).
  rewrite Hg, Hunk.
  destruct (Py.positive (get_length_fallback e path)) eqn:Epr.
  - eexists. split; [reflexivity|]. split; [discriminate|]. intros _.
    cbn. rewrite Epr. cbn. repeat split.
  - eexists. split; [reflexivity|]. split; [|discriminate]. intros _.
    cbn. rewrite Hunk. cbn. repeat split.
Qed.

Lemma seek_with_unknown_duration_witness :
  exists s1,
    _on_seek env_unknown 42%float one_unknown = Ok s1 /\
    _manual_seek_pos s1 = Some 42%float /\
    (exists s2, _on_seek env0 42%float one_unknown = Ok s2 /\
       _manual_seek_pos s2 = Some 42%float /\ length s2 = 100%float).
Proof.
  destruct (@seek_with_unknown_duration env_unknown 42%float one_unknown 0 "a.mp3")
    as (s1 & Hs1 & Hno & _); try (vm_compute; reflexivity); [lia|].
  destruct (@seek_with_unknown_duration env0 42%float one_unknown 0 "a.mp3")
    as (s2 & Hs2 & _ & Hyes); try (vm_compute; reflexivity); [lia|].
  exists s1. split; [exact Hs1|]. split.
  - apply Hno. vm_compute. reflexivity.
  - exists s2. split; [exact Hs2|].
    destruct Hyes as (_ & Hm & Hl); [vm_compute; reflexivity|].
    split; [rewrite Hm; vm_compute; reflexivity | exact Hl].
Defined.

(** ** Double click on a row *)

Lemma first_index_found (test : string -> bool) (l : list string)
      (i0 : Z) (n : nat) (p : string) :
  nth_error l n = Some p -> test p = true ->
  (forall j q, (j < n)%nat -> nth_error l j = Some q -> test q = false) ->
  first_index test l i0 = Some (i0 + Z.of_nat n).
Proof.
  revert i0 n. induction l as [|a l IH]; intros i0 n Hn Hp Hbefore.
  - destruct n; discriminate.
  - destruct n as [|n]; cbn [first_index].
    + cbn in Hn. injection Hn as ->. rewrite Hp. f_equal. lia.
    + rewrite (Hbefore 0%nat a); [|lia|reflexivity].
      rewrite (IH (i0 + 1) n); [f_equal; lia | exact Hn | exact Hp |].
      intros j q Hj Hq. apply (Hbefore (S j) q); [lia | exact Hq].
Qed.

Lemma first_index_none (test : string -> bool) (l : list string) (i0 : Z) :
  (forall q, In q l -> test q = false) -> first_index test l i0 = None.
Proof.
  revert i0. induction l as [|a l IH]; intros i0 H; cbn [first_index];
    [reflexivity|].
  rewrite (H a) by (left; reflexivity). apply IH.
  intros q Hq. apply H. right. exact Hq.
Qed.

(** X14.  A double click plays the first entry of the playlist whose file
    name equals the text of the selected row: of several entries with
    that file name it is always the first that becomes current.  When no
    entry has that name, and when no row is selected while an index is
    set, the current track is started as it is; with no row selected and
    no index, the first entry of a non-empty playlist becomes current. *)
Theorem play_selected_picks_first_match (e : env) (n : string) (s : player) :
  (forall (k : nat) (p : string),
     nth_error (playlist s) k = Some p -> basename e p = n ->
     (forall j q, (j < k)%nat -> nth_error (playlist s) j = Some q ->
                  basename e q <> n) ->
     play_selected e (Some n) s =
       start_playback e (set_idx s (Some (Z.of_nat k))) /\
     idx (play_selected e (Some n) s) = Some (Z.of_nat k)) /\
  ((forall q, In q (playlist s) -> basename e q <> n) ->
   play_selected e (Some n) s = start_playback e s) /\
  (idx s = None -> playlist s <> [] ->
   idx (play_selected e None s) = Some 0) /\
  (idx s <> None -> play_selected e None s = start_playback e s).
Proof.
  split; [|split; [|split]].
  - intros k p Hk Hp Hbefore. unfold play_selected. cbv zeta.
    rewrite (@first_index_found _ (playlist s) 0 k p); trivial.
    + split; [reflexivity|]. rewrite start_playback_idx. reflexivity.
    + rewrite Hp. apply String.eqb_refl.
    + intros j q Hj Hq. apply String.eqb_neq. eapply Hbefore; eauto.
  - intros Hnone. unfold play_selected. cbv zeta.
    rewrite first_index_none; [reflexivity|].
    intros q Hq. apply String.eqb_neq. apply Hnone. exact Hq.
  - intros Hi Hne. unfold play_selected. cbv zeta. rewrite Hi.
    destruct (playlist s); [congruence|].
    rewrite start_playback_idx. reflexivity.
  - intros Hi. unfold play_selected. cbv zeta.
    destruct (idx s); [reflexivity | congruence].
Qed.

Lemma play_selected_picks_first_match_witness :
  idx same_names = Some 1 /\
  nth_error (playlist same_names) 1 = Some "y/a.mp3" /\
  idx (play_selected env_dirs (Some "a.mp3") same_names) = Some 0.
Proof.
  split; [vm_compute; reflexivity|]. split; [vm_compute; reflexivity|].
  apply (proj1 (play_selected_picks_first_match env_dirs "a.mp3" same_names)
           0%nat "x/a.mp3").
  - vm_compute. reflexivity.
  - vm_compute. reflexivity.
  - intros j q Hj. lia.
Defined.

(** ** Removing another row than the current one *)

Lemma getitem_nth_error {A : Type} (l : list A) (j : Z) :
  0 <= j -> Py.getitem l j = nth_error l (Z.to_nat j).
Proof.
  intros Hj. unfold Py.getitem. cbv zeta.
  assert ((j <? 0) = false) as E by (apply Z.ltb_ge; lia).
  rewrite !E. cbn [orb].
  destruct (Py.len l <=? j) eqn:E2; [|reflexivity].
  apply Z.leb_le in E2. symmetry. apply nth_error_None.
  unfold Py.len in E2. lia.
Qed.

Lemma pop_getitem {A : Type} (l l' : list A) (r j : Z) :
  0 <= r -> Py.pop l r = Some l' -> 0 <= j ->
  Py.getitem l' j = Py.getitem l (if j <? r then j else j + 1).
Proof.
  intros Hr Hpop Hj. unfold Py.pop in Hpop. cbv zeta in Hpop.
  assert ((r <? 0) = false) as E by (apply Z.ltb_ge; lia).
  rewrite !E in Hpop. cbn [orb] in Hpop.
  destruct (Py.len l <=? r) eqn:E2; [discriminate|]. apply Z.leb_gt in E2.
  injection Hpop as <-. unfold Py.len in E2.
  assert (Datatypes.length (firstn (Z.to_nat r) l) = Z.to_nat r) as Hlen
    by (rewrite length_firstn; lia).
  destruct (j <? r) eqn:Ej; [apply Z.ltb_lt in Ej | apply Z.ltb_ge in Ej];
    rewrite !getitem_nth_error by lia.
  - rewrite nth_error_app1 by lia.
    rewrite nth_error_firstn.
    assert ((Z.to_nat j <? Z.to_nat r)%nat = true) as -> by (apply Nat.ltb_lt; lia).
    reflexivity.
  - rewrite nth_error_app2 by lia. rewrite Hlen, nth_error_skipn.
    f_equal. lia.
Qed.

(** X15.  Removing a row other than the current one does not disturb
    playback, and the current index goes on pointing at the same track:
    it is lowered by one when the row was above it in the list, kept
    otherwise, and the entry it selects is the entry it selected before.
    No call goes to the mixer, and the flags and the known duration
    stay. *)
Theorem remove_keeps_current_track
  (row : nat) (rest : list nat) (s : player) (k : Z) :
  idx s = Some k -> 0 <= k < Py.len (playlist s) ->
  Z.of_nat row < Py.len (playlist s) -> Z.of_nat row <> k ->
  exists s',
    remove_selected (row :: rest) s = Ok s' /\
    idx s' = Some (if Z.of_nat row <? k then k - 1 else k) /\
    Py.getitem (playlist s') (if Z.of_nat row <? k then k - 1 else k)
      = Py.getitem (playlist s) k /\
    Py.len (playlist s') = Py.len (playlist s) - 1 /\
    playing s' = playing s /\ paused s' = paused s /\
    transport s' = transport s /\ length s' = length s.
Proof.
  intros Ek Hk Hrow Hne.
  destruct (@remove_selected_cases row rest s Hrow) as (pl & Hpop & Hlen & ->).
  rewrite Ek.
  assert ((k =? Z.of_nat row) = false) as -> by (apply Z.eqb_neq; lia).
  destruct (Z.of_nat row <? k) eqn:E;
    [apply Z.ltb_lt in E | apply Z.ltb_ge in E];
    eexists; (split; [reflexivity|]); cbn; repeat split; trivial.
  - rewrite (@pop_getitem _ (playlist s) pl (Z.of_nat row) (k - 1)) by (trivial; lia).
    assert ((k - 1 <? Z.of_nat row) = false) as -> by (apply Z.ltb_ge; lia).
    f_equal. lia.
  - rewrite (@pop_getitem _ (playlist s) pl (Z.of_nat row) k) by (trivial; lia).
    assert ((k <? Z.of_nat row) = true) as -> by (apply Z.ltb_lt; lia).
    reflexivity.
Qed.

Lemma remove_keeps_current_track_witness :
  Py.getitem (playlist same_names) 1 = Some "y/a.mp3" /\
  (exists s', remove_selected [0%nat] same_names = Ok s' /\
     idx s' = Some 0 /\ Py.getitem (playlist s') 0 = Some "y/a.mp3" /\
     playing s' = true) /\
  (exists s', remove_selected [2%nat] same_names = Ok s' /\
     idx s' = Some 1 /\ Py.getitem (playlist s') 1 = Some "y/a.mp3").
Proof.
  split; [vm_compute; reflexivity|]. split.
  - destruct (@remove_keeps_current_track 0%nat [] same_names 1)
      as (s' & H1 & H2 & H3 & _ & H5 & _).
    + vm_compute. reflexivity.
    + vm_compute. split; [discriminate | reflexivity].
    + vm_compute. reflexivity.
    + vm_compute. discriminate.
    + exists s'. split; [exact H1|]. split; [exact H2|].
      split; [etransitivity; [exact H3 | vm_compute; reflexivity]|].
      rewrite H5. vm_compute. reflexivity.
  - destruct (@remove_keeps_current_track 2%nat [] same_names 1)
      as (s' & H1 & H2 & H3 & _).
    + vm_compute. reflexivity.
    + vm_compute. split; [discriminate | reflexivity].
    + vm_compute. reflexivity.
    + vm_compute. discriminate.
    + exists s'. split; [exact H1|]. split; [exact H2|].
      etransitivity; [exact H3 | vm_compute; reflexivity].
Defined.

(** ** Loading a saved playlist *)

(** X16.  When [playlist.json] is missing, or cannot be read or parsed,
    [load_playlist] shows a box and does not touch the player.  Once the
    file has been read the playlist is cleared and playback stopped (one
    [stop()] goes to the mixer), whatever the file holds.  Then:
    - if the loop goes through the loaded values (an array of strings and
      falsy values, the keys of an object, the characters of a string),
      the playlist is made of the non-empty strings among them,
      duplicates dropped, in file order, the first entry is current when
      there is one, and "Loaded" is shown;
    - if the loop meets a value that is neither a string nor falsy (a
      number in the array, say), the strings before it are in the
      playlist, that value follows them in [self.playlist], the index
      stays absent even when entries were loaded, and "Error" is shown;
    - if the value is not iterable (a number, a boolean, null), the
      playlist stays empty and "Error" is shown. *)
Theorem load_replaces_playlist (e : env) (s : player) (data : json) :
  load_playlist e s None = (messagebox s (ShowWarning "Not found"), None) /\
  (can_read e = false ->
   load_playlist e s (Some data) = (messagebox s (ShowError "Error"), None)) /\
  (can_read e = true ->
   cleared s (fst (load_playlist e s (Some data))) /\
   playback_of (fst (load_playlist e s (Some data))) = Stopped /\
   NoDup (playlist (fst (load_playlist e s (Some data)))) /\
   ~ In "" (playlist (fst (load_playlist e s (Some data)))) /\
   (forall items,
      json_iter data = Some items -> forallb passes items = true ->
      load_playlist e s (Some data) =
        (messagebox (snd (_add_paths (strings_of items) (clear_playlist s)))
           (ShowInfo "Loaded"), None) /\
      playlist (fst (load_playlist e s (Some data))) =
        appended (strings_of items) [] /\
      (forall p, In p (playlist (fst (load_playlist e s (Some data)))) <->
                 In p (strings_of items) /\ p <> "") /\
      idx (fst (load_playlist e s (Some data))) =
        match appended (strings_of items) [] with
        | [] => None
        | _ :: _ => Some 0
        end) /\
   (forall pre v rest,
      json_iter data = Some (pre ++ v :: rest) ->
      forallb passes pre = true -> passes v = false ->
      load_playlist e s (Some data) =
        (messagebox
           (set_playlist (clear_playlist s) (appended (strings_of pre) []))
           (ShowError "Error"), Some v) /\
      playlist (fst (load_playlist e s (Some data))) =
        appended (strings_of pre) [] /\
      idx (fst (load_playlist e s (Some data))) = None) /\
   (json_iter data = None ->
    load_playlist e s (Some data) =
      (messagebox (clear_playlist s) (ShowError "Error"), None))).
Proof.
  split; [reflexivity|]. split.
  { intros Hr. unfold load_playlist. rewrite Hr. reflexivity. }
  intros Hr.
  assert (cleared s (fst (load_playlist e s (Some data))) /\
          NoDup (playlist (fst (load_playlist e s (Some data)))) /\
          ~ In "" (playlist (fst (load_playlist e s (Some data))))) as (Hc & Hnd & Hne).
  { destruct (load_playlist_effect e s (Some data))
      as [([E|E] & _)|(paths & Hpl & Hc & _)]; [discriminate E | congruence |].
    split; [exact Hc|]. rewrite Hpl. apply appended_wf. }
  split; [exact Hc|]. split.
  { unfold playback_of. destruct Hc as (-> & _). reflexivity. }
  split; [exact Hnd|]. split; [exact Hne|]. split; [|split].
  - intros items Hi Hp. rewrite (@load_playlist_passes e s data items Hr Hi Hp). cbn [fst].
    split; [reflexivity|].
    destruct (_add_paths_effect (strings_of items) (clear_playlist s))
      as (Hpl & Hidx & _).
    cbv zeta in Hpl, Hidx. cbn [playlist clear_playlist stop_song set_curr_lbl
      set_slider set_play_btn set_paused set_playing mixer set_idx set_playlist
      app idx] in Hpl, Hidx.
    cbn [playlist idx messagebox]. rewrite Hpl, Hidx.
    split; [reflexivity|]. split; [|reflexivity].
    intros p. rewrite appended_In. cbn. tauto.
  - intros pre v rest Hi Hp Hv. rewrite (@load_playlist_stops e s data pre rest v Hr Hi Hp Hv).
    repeat split.
  - intros Hi. apply load_playlist_not_iterable; assumption.
Qed.

Lemma load_replaces_playlist_witness :
  playlist (fst (load_playlist env0 one_playing (Some with_number))) = ["a.mp3"] /\
  idx (fst (load_playlist env0 one_playing (Some with_number))) = None /\
  snd (load_playlist env0 one_playing (Some with_number)) = Some (JInt 5) /\
  playback_of (fst (load_playlist env0 one_playing (Some with_number))) = Stopped /\
  playlist (fst (load_playlist env0 one_playing (Some no_array))) = [] /\
  load_playlist env_unreadable one_playing (Some no_array)
    = (messagebox one_playing (ShowError "Error"), None).
Proof.
  destruct (load_replaces_playlist env0 one_playing with_number)
    as (_ & _ & Hread).
  destruct Hread as (_ & Hst & _ & _ & _ & Hstop & _); [reflexivity|].
  destruct (Hstop [JStr "a.mp3"; JNull; JStr ""] (JInt 5) [JStr "b.mp3"])
    as (_ & Hpl & Hidx); try reflexivity.
  split; [rewrite Hpl; vm_compute; reflexivity|].
  split; [exact Hidx|]. split; [vm_compute; reflexivity|].
  split; [exact Hst|]. split; [vm_compute; reflexivity|].
  apply (proj1 (proj2 (load_replaces_playlist env_unreadable one_playing no_array))).
  reflexivity.
Defined.

(** ** Durations *)

(** X17.  [get_length_fallback] returns the duration of the tag reader
    whenever that is positive.  When the tag reader raises or gives no
    positive duration, it returns what [pygame.mixer.Sound] measures, and
    0.0 when that raises too.  [get_length] alone does not: for a file
    whose extension has a tag reader and whose tags cannot be read it is
    0.0 whatever pygame could measure. *)
Theorem length_probe_falls_back (r : Probe.readers) (path : string) :
  (Py.positive (Probe.get_length r path) = true ->
   Probe.get_length_fallback r path = Probe.get_length r path) /\
  (forall x, Py.positive (Probe.get_length r path) = false ->
             Probe.sound_length r path = Some x ->
             Probe.get_length_fallback r path = x) /\
  (Py.positive (Probe.get_length r path) = false ->
   Probe.sound_length r path = None ->
   Probe.get_length_fallback r path = 0%float) /\
  (Probe.ext r path = ".mp3" -> Probe.mp3_length r path = None ->
   Probe.get_length r path = 0%float /\
   forall x, Probe.sound_length r path = Some x ->
             Probe.get_length_fallback r path = x).
Proof.
  unfold Probe.get_length_fallback. cbv zeta. repeat split.
  - intros ->. reflexivity.
  - intros x -> ->. reflexivity.
  - intros -> ->. reflexivity.
  - unfold Probe.get_length, Probe.reader_for. cbv zeta. rewrite H, H0. reflexivity.
  - intros x Hx.
    assert (Probe.get_length r path = 0%float) as ->.
    { unfold Probe.get_length, Probe.reader_for. cbv zeta. rewrite H, H0. reflexivity. }
    assert (Py.positive 0%float = false) as -> by reflexivity.
    rewrite Hx. reflexivity.
Qed.

Lemma length_probe_falls_back_witness :
  Probe.get_length Probe.broken_tags "a.mp3" = 0%float /\
  Probe.get_length_fallback Probe.broken_tags "a.mp3" = 12.5%float.
Proof.
  destruct (length_probe_falls_back Probe.broken_tags "a.mp3")
    as (_ & _ & _ & H).
  destruct H as (H1 & H2); [reflexivity | reflexivity |].
  split; [exact H1 | apply H2; reflexivity].
Defined.

(** ** Time labels *)

Lemma fmt_02d_below_100 :
  forallb (fun n => (Py.fmt_02d (Z.of_nat n) =? two_digits (Z.of_nat n))%string)
          (seq 0 100) = true.
Proof. vm_compute. reflexivity. Qed.

Lemma fmt_02d_two_digits (z : Z) : 0 <= z < 100 -> Py.fmt_02d z = two_digits z.
Proof.
  intros Hz. pose proof fmt_02d_below_100 as H.
  rewrite forallb_forall in H. specialize (H (Z.to_nat z)).
  rewrite Z2Nat.id in H by lia. apply String.eqb_eq, H.
  apply in_seq. lia.
Qed.

Lemma digit_inj (a b : Z) : 0 <= a < 10 -> 0 <= b < 10 -> digit a = digit b -> a = b.
Proof.
  intros Ha Hb H. unfold digit in H. apply (f_equal nat_of_ascii) in H.
  rewrite !nat_ascii_embedding in H by lia. lia.
Qed.

Lemma two_digits_inj (a b : Z) :
  0 <= a < 100 -> 0 <= b < 100 -> two_digits a = two_digits b -> a = b.
Proof.
  intros Ha Hb H. unfold two_digits in H. injection H as H1 H2.
  apply digit_inj in H2; [|apply Z.mod_pos_bound; lia|apply Z.mod_pos_bound; lia].
  apply digit_inj in H1;
    [|split; [apply Z.div_pos; lia | apply Z.div_lt_upper_bound; lia]
     |split; [apply Z.div_pos; lia | apply Z.div_lt_upper_bound; lia]].
  rewrite (Z.div_mod a 10), (Z.div_mod b 10) by lia. congruence.
Qed.

(** X18.  For a position of less than 100 minutes, [format_time] gives
    minutes and seconds in two digits each around a colon, the seconds
    below 60: a label of five characters.  Two such positions have the
    same label only if they have the same whole number of seconds.  A
    position that [int()] cannot convert gives "00:00". *)
Theorem format_time_of_position (x y : float) (n m : Z) :
  Py.int_of_float x = Some n -> 0 <= n < 6000 ->
  Py.int_of_float y = Some m -> 0 <= m < 6000 ->
  format_time x = (two_digits (n / 60) ++ ":" ++ two_digits (n mod 60))%string /\
  String.length (format_time x) = 5%nat /\
  0 <= n mod 60 < 60 /\
  (format_time x = format_time y -> n = m) /\
  (forall z, Py.int_of_float z = None -> format_time z = "00:00").
Proof.
  intros Hx Hn Hy Hm.
  assert (forall k, 0 <= k < 6000 -> 0 <= k / 60 < 100 /\ 0 <= k mod 60 < 100) as Hr.
  { intros k Hk. pose proof (Z.mod_pos_bound k 60). split; [|lia].
    split; [apply Z.div_pos; lia | apply Z.div_lt_upper_bound; lia]. }
  assert (forall z k, Py.int_of_float z = Some k -> 0 <= k < 6000 ->
            format_time z =
            (two_digits (k / 60) ++ ":" ++ two_digits (k mod 60))%string) as Hf.
  { intros z k Hz Hk. unfold format_time, format_time_int. rewrite Hz.
    destruct (Hr k Hk) as [H1 H2]. now rewrite !fmt_02d_two_digits. }
  split; [apply Hf; assumption|].
  split; [rewrite (Hf x n) by assumption; reflexivity|].
  split; [apply Z.mod_pos_bound; lia|].
  split.
  - rewrite (Hf x n), (Hf y m) by assumption. intros H.
    unfold two_digits in H. cbn [append] in H.
    injection H as H1 H2 H3 H4.
    destruct (Hr n Hn) as [Hn1 Hn2]. destruct (Hr m Hm) as [Hm1 Hm2].
    assert (n / 60 = m / 60) as Hq
      by (apply two_digits_inj; trivial; unfold two_digits; congruence).
    assert (n mod 60 = m mod 60) as Hrem
      by (apply two_digits_inj; trivial; unfold two_digits; congruence).
    rewrite (Z.div_mod n 60), (Z.div_mod m 60) by lia. congruence.
  - intros z Hz. unfold format_time. rewrite Hz. reflexivity.
Qed.

Lemma format_time_of_position_witness :
  format_time 179.5%float = "02:59" /\
  String.length (format_time 179.5%float) = 5%nat /\
  format_time nan = "00:00" /\ format_time infinity = "00:00".
Proof.
  destruct (@format_time_of_position 179.5%float 59.25%float 179 59)
    as (H1 & H2 & _ & _ & H5); try (vm_compute; reflexivity);
    try (vm_compute; split; [discriminate | reflexivity]).
  split; [rewrite H1; vm_compute; reflexivity|]. split; [exact H2|].
  split; apply H5; vm_compute; reflexivity.
Defined.

(** ** The list box and the playlist *)

Lemma remove_selected_playlist (row : nat) (rest : list nat) (s : player) :
  Z.of_nat row < Py.len (playlist s) ->
  Py.pop (playlist s) (Z.of_nat row) =
    Some (playlist (after (remove_selected (row :: rest) s))) /\
  Py.len (playlist (after (remove_selected (row :: rest) s))) =
    Py.len (playlist s) - 1.
Proof.
  intros Hrow.
  destruct (@remove_selected_cases row rest s Hrow) as (pl & Hpop & Hlen & ->).
  rewrite Hpop.
  destruct (idx s) as [k|]; [|split; [reflexivity | exact Hlen]].
  destruct (k =? Z.of_nat row); [split; [reflexivity | exact Hlen]|].
  destruct (Z.of_nat row <? k); split; trivial.
Qed.

Lemma play_selected_playlist (e : env) (name : option string) (s : player) :
  playlist (play_selected e name s) = playlist s.
Proof.
  unfold play_selected. cbv zeta. rewrite start_playback_playlist.
  destruct name; repeat break_match; cbn; congruence.
Qed.

Lemma playback_only_playlist (e : env) (ev : event) (s : player) (f : file) :
  View.playback_only ev = true ->
  playlist (fst (step e ev (s, f))) = playlist s.
Proof.
  destruct ev; cbn [View.playback_only]; try discriminate; intros _;
    cbn [step fst].
  - unfold save_playlist. destruct (can_write e); reflexivity.
  - apply play_pause_playlist.
  - reflexivity.
  - apply next_song_playlist.
  - apply prev_song_playlist.
  - apply _on_seek_playlist.
  - reflexivity.
  - reflexivity.
  - unfold cycle_repeat. destruct (repeat s); reflexivity.
  - apply _update_loop_playlist.
Qed.

Lemma nth_error_filter {A : Type} (f : A -> bool) (l : list A) (r : nat) (p : A) :
  nth_error (filter f l) r = Some p ->
  exists k, nth_error l k = Some p /\ f p = true /\
            r = Datatypes.length (filter f (firstn k l)).
Proof.
  revert r. induction l as [|a l IH]; intros r H; [destruct r; discriminate|].
  cbn [filter] in H. destruct (f a) eqn:Ea.
  - destruct r as [|r].
    + cbn in H. injection H as <-. exists 0%nat. repeat split. exact Ea.
    + cbn in H. destruct (IH r H) as (k & Hk & Hp & Hr).
      exists (S k). cbn [nth_error firstn filter]. rewrite Ea. cbn.
      repeat split; trivial. now f_equal.
  - destruct (IH r H) as (k & Hk & Hp & Hr).
    exists (S k). cbn [nth_error firstn filter]. rewrite Ea.
    repeat split; trivial.
Qed.

Lemma filter_shorter {A : Type} (f : A -> bool) (l : list A) (q : A) :
  In q l -> f q = false ->
  (Datatypes.length (filter f l) < Datatypes.length l)%nat.
Proof.
  induction l as [|a l IH]; intros Hin Hq; [destruct Hin|].
  pose proof (filter_length_le f l) as Hle. cbn [filter Datatypes.length].
  destruct Hin as [->|Hin].
  - rewrite Hq. lia.
  - specialize (IH Hin Hq). destruct (f a); cbn; lia.
Qed.

Section ViewFacts.

Variables base lower : string -> string.

Lemma _add_paths_rows_spec (paths pl rs : list string) :
  View._add_paths_rows base paths pl rs = rs ++ map base (appended paths pl).
Proof.
  assert (forall paths pl rs added,
            exists new, fst (_add_paths_loop paths pl added) = pl ++ new /\
                        View._add_paths_rows base paths pl rs = rs ++ map base new)
    as H.
  { clear. induction paths as [|p rest IH]; intros pl rs added; cbn.
    - exists []. now rewrite !app_nil_r.
    - destruct (negb (p =? "")%string && negb (Py.mem p pl)).
      + destruct (IH (pl ++ [p]) (rs ++ [base p]) true) as (new & H1 & H2).
        exists (p :: new). rewrite H1, H2, <- !app_assoc. split; reflexivity.
      + apply IH. }
  destruct (H paths pl rs false) as (new & H1 & H2).
  rewrite _add_paths_loop_spec in H1. cbn [fst] in H1.
  apply app_inv_head in H1. now rewrite H2, H1.
Qed.

Lemma delete_row_length (i : nat) (rs : list string) :
  (i < Datatypes.length rs)%nat ->
  Datatypes.length (View.delete_row i rs) = (Datatypes.length rs - 1)%nat.
Proof.
  intros Hi. unfold View.delete_row.
  rewrite length_app, length_firstn, length_skipn. lia.
Qed.

Lemma _add_values_rows_passes (items : list json) (pl rs : list string) :
  forallb passes items = true ->
  View._add_values_rows base items pl rs =
    View._add_paths_rows base (strings_of items) pl rs.
Proof.
  revert pl rs. induction items as [|w rest IH]; intros pl rs H; [reflexivity|].
  cbn [forallb] in H. apply andb_true_iff in H as [Hw Hrest].
  destruct w; cbn [View._add_values_rows strings_of View._add_paths_rows];
    try (unfold passes in Hw; apply negb_true_iff in Hw; rewrite Hw;
         apply IH; exact Hrest).
  destruct (negb (s =? "")%string && negb (Py.mem s pl)); apply IH; exact Hrest.
Qed.

Lemma _add_values_rows_stops
  (pre rest : list json) (w : json) (pl rs : list string) :
  forallb passes pre = true -> passes w = false ->
  View._add_values_rows base (pre ++ w :: rest) pl rs =
    View._add_paths_rows base (strings_of pre) pl rs.
Proof.
  revert pl rs. induction pre as [|u pre IH]; intros pl rs H Hw.
  - cbn [app strings_of View._add_paths_rows].
    destruct w; try discriminate Hw; cbn [View._add_values_rows];
      unfold passes in Hw; apply negb_false_iff in Hw; rewrite Hw; reflexivity.
  - cbn [forallb] in H. apply andb_true_iff in H as [Hu Hpre].
    destruct u;
      cbn [app View._add_values_rows strings_of View._add_paths_rows];
      try (unfold passes in Hu; apply negb_true_iff in Hu; rewrite Hu;
           apply IH; assumption).
    destruct (negb (s =? "")%string && negb (Py.mem s pl)); apply IH; assumption.
Qed.

(** Once the file has been read, the rows are the file names of the
    entries that the load has left in the player. *)
Lemma load_playlist_rows (e : env) (v : View.view) (data : json) :
  View.disk v = Some data -> can_read e = true ->
  View.rows (View.load_playlist base e v) =
    map base (playlist (View.app (View.load_playlist base e v))).
Proof.
  intros Ed Er. unfold View.load_playlist. rewrite Ed, Er.
  cbn [View.rows View.app].
  destruct (json_iter data) as [items|] eqn:Hi.
  - destruct (passes_or_stops items) as [H|(pre & w & rest & E & Hpre & Hw)].
    + rewrite (@_add_values_rows_passes items _ _ H), _add_paths_rows_spec,
        (@load_playlist_passes e (View.app v) data items Er Hi H).
      cbn [fst playlist messagebox app].
      destruct (_add_paths_effect (strings_of items) (clear_playlist (View.app v)))
        as (Hpl & _).
      cbv zeta in Hpl. rewrite Hpl. reflexivity.
    + subst items.
      rewrite (@_add_values_rows_stops pre rest w _ _ Hpre Hw),
        _add_paths_rows_spec,
        (@load_playlist_stops e (View.app v) data pre rest w Er Hi Hpre Hw).
      reflexivity.
  - rewrite (@load_playlist_not_iterable e (View.app v) data Er Hi). reflexivity.
Qed.

Lemma moves_rows_fit (v v' : View.view) :
  View.moves base lower v v' -> View.rows_fit v -> View.rows_fit v'.
Proof.
  unfold View.rows_fit. intros Hm Hv. destruct Hm; cbn [View.rows View.app].
  - unfold View._add_paths. cbn [View.rows View.app].
    rewrite _add_paths_rows_spec.
    destruct (_add_paths_effect paths (View.app v)) as (Hpl & _).
    cbv zeta in Hpl. rewrite Hpl, !length_app, length_map. lia.
  - destruct sel as [|i rest]; [exact Hv|]. cbn [View.remove_selected View.rows View.app].
    assert (i < Datatypes.length (View.rows v))%nat as Hi by (apply H; left; reflexivity).
    assert (Z.of_nat i < Py.len (playlist (View.app v))) as Hrow
      by (unfold Py.len; lia).
    destruct (@remove_selected_playlist i rest (View.app v) Hrow) as (_ & Hlen).
    rewrite delete_row_length by exact Hi. unfold Py.len in Hlen. lia.
  - cbn. lia.
  - destruct (View.disk v) as [data|] eqn:Ed.
    + destruct (can_read e) eqn:Er.
      * rewrite (@load_playlist_rows e v data Ed Er), length_map. lia.
      * unfold View.load_playlist. rewrite Ed, Er. cbn [View.rows View.app].
        unfold load_playlist. rewrite Er. exact Hv.
    + unfold View.load_playlist. rewrite Ed. exact Hv.
  - unfold View.play_selected. cbn [View.rows View.app].
    rewrite play_selected_playlist. exact Hv.
  - unfold View.search, View._filter_playlist. cbn [View.rows View.app View.query].
    rewrite length_map. apply filter_length_le.
  - unfold View._filter_playlist. cbn [View.rows View.app].
    rewrite length_map. apply filter_length_le.
  - unfold View.playback. cbn [View.rows View.app].
    rewrite playback_only_playlist by assumption. exact Hv.
Qed.

Lemma reached_rows_fit (v : View.view) :
  View.reached base lower v -> View.rows_fit v.
Proof.
  induction 1 as [|v v' _ IH Hm]; [unfold View.rows_fit; cbn; lia|].
  eapply moves_rows_fit; eauto.
Qed.

(** X19.  However the window was used, the row that is selected in the
    list box is the number of an entry of the playlist: the list box
    never has more rows than the playlist has entries, so
    [self.playlist.pop(i)] in [remove_selected] never raises
    [IndexError]. *)
Theorem remove_selected_never_raises (v : View.view) (sel : list nat) :
  View.reached base lower v -> View.sel_ok sel v ->
  (Datatypes.length (View.rows v) <=
   Datatypes.length (playlist (View.app v)))%nat /\
  exists s', remove_selected sel (View.app v) = Ok s'.
Proof.
  intros Hr Hsel. pose proof (reached_rows_fit Hr) as Hfit.
  split; [exact Hfit|].
  destruct sel as [|i rest]; [eexists; reflexivity|].
  assert (i < Datatypes.length (View.rows v))%nat as Hi
    by (apply Hsel; left; reflexivity).
  assert (Z.of_nat i < Py.len (playlist (View.app v))) as Hrow
    by (unfold View.rows_fit in Hfit; unfold Py.len; lia).
  destruct (@remove_selected_cases i rest (View.app v) Hrow) as (pl & _ & _ & ->).
  repeat break_match; eexists; reflexivity.
Qed.

Lemma pop_splits (l l' : list string) (i : nat) (p : string) :
  nth_error l i = Some p -> Py.pop l (Z.of_nat i) = Some l' ->
  l = firstn i l ++ p :: skipn (S i) l /\ l' = firstn i l ++ skipn (S i) l.
Proof.
  intros Hn Hpop. split; [symmetry; apply firstn_skipn_middle; exact Hn|].
  unfold Py.pop in Hpop. cbv zeta in Hpop.
  assert ((Z.of_nat i <? 0) = false) as E by (apply Z.ltb_ge; lia).
  rewrite !E in Hpop. cbn [orb] in Hpop.
  destruct (_ <=? _); [discriminate|]. injection Hpop as <-.
  rewrite Nat2Z.id. replace (Z.to_nat (Z.of_nat i + 1)) with (S i) by lia.
  reflexivity.
Qed.

(** X20.  While every row of the list box is the file name of the
    playlist entry of its number, which an empty search text and adding
    files bring about and keep, removing the selected row removes the
    track the row shows, and the rows stay in step with the playlist. *)
Theorem unfiltered_remove_takes_the_row_shown
  (v : View.view) (paths : list string) (i : nat) :
  (View.query v = "" -> View.in_step base (View._filter_playlist base lower v)) /\
  (View.in_step base v -> View.in_step base (View._add_paths base paths v)) /\
  (View.in_step base v -> NoDup (playlist (View.app v)) ->
   (i < Datatypes.length (View.rows v))%nat ->
   exists p,
     nth_error (playlist (View.app v)) i = Some p /\
     nth_error (View.rows v) i = Some (base p) /\
     ~ In p (playlist (View.app (View.remove_selected [i] v))) /\
     View.in_step base (View.remove_selected [i] v)).
Proof.
  unfold View.in_step. split; [|split].
  - intros Hq. unfold View._filter_playlist. cbn [View.rows View.app].
    rewrite Hq. f_equal. apply forallb_filter_id. apply forallb_forall.
    intros p _. reflexivity.
  - intros Hs. unfold View._add_paths. cbn [View.rows View.app].
    rewrite _add_paths_rows_spec, Hs.
    destruct (_add_paths_effect paths (View.app v)) as (-> & _).
    now rewrite map_app.
  - intros Hs Hnd Hi. rewrite Hs, length_map in Hi.
    destruct (nth_error (playlist (View.app v)) i) as [p|] eqn:Hp;
      [|apply nth_error_None in Hp; lia].
    assert (Z.of_nat i < Py.len (playlist (View.app v))) as Hrow
      by (unfold Py.len; lia).
    destruct (@remove_selected_playlist i [] (View.app v) Hrow) as (Hpop & _).
    destruct (@pop_splits _ _ _ _ Hp Hpop) as (Hl & Hl').
    exists p. split; [reflexivity|]. split; [|split].
    + rewrite Hs. now rewrite nth_error_map, Hp.
    + cbn [View.remove_selected View.app]. rewrite Hl'.
      rewrite Hl in Hnd. apply NoDup_remove_2 in Hnd. exact Hnd.
    + cbn [View.remove_selected View.app View.rows]. rewrite Hl', Hs.
      unfold View.delete_row. now rewrite map_app, firstn_map, skipn_map.
Qed.

(** X21.  While a search filters the list box, the rows are numbered
    apart from the playlist, and [remove_selected] still pops the
    playlist entry that has the number of the row.  So when an entry that
    the search hides stands before the track a row shows, removing that
    row takes another track out of the playlist and leaves the track of
    the row in it. *)
Theorem filtered_remove_takes_another_track
  (v : View.view) (i j k : nat) (p hidden : string) :
  NoDup (playlist (View.app v)) ->
  nth_error (filter (View.shown base lower (View.query v))
               (playlist (View.app v))) i = Some p ->
  nth_error (playlist (View.app v)) k = Some p ->
  nth_error (playlist (View.app v)) j = Some hidden -> (j < k)%nat ->
  View.shown base lower (View.query v) hidden = false ->
  nth_error (View.rows (View._filter_playlist base lower v)) i = Some (base p) /\
  exists p',
    nth_error (playlist (View.app v)) i = Some p' /\ p' <> p /\
    ~ In p' (playlist (View.app (View.remove_selected [i]
                                   (View._filter_playlist base lower v)))) /\
    In p (playlist (View.app (View.remove_selected [i]
                                (View._filter_playlist base lower v)))).
Proof.
  intros Hnd Hrow Hk Hj Hjk Hhid.
  set (l := playlist (View.app v)) in *.
  set (f := View.shown base lower (View.query v)) in *.
  split.
  { unfold View._filter_playlist. cbn [View.rows]. fold l f.
    now rewrite nth_error_map, Hrow. }
  destruct (nth_error_filter f l i Hrow) as (k' & Hk' & _ & Hi).
  assert (k' = k) as ->.
  { apply (proj1 (NoDup_nth_error l) Hnd).
    - apply nth_error_Some. congruence.
    - congruence. }
  assert (k < Datatypes.length l)%nat as Hklen by (apply nth_error_Some; congruence).
  assert (i < k)%nat as Hik.
  { rewrite Hi.
    assert (Datatypes.length (firstn k l) = k) as Hfl
      by (rewrite length_firstn; lia).
    rewrite <- Hfl at 2. apply (@filter_shorter _ f (firstn k l) hidden); [|exact Hhid].
    apply (@nth_error_In _ _ j). rewrite nth_error_firstn.
    assert ((j <? k)%nat = true) as -> by (apply Nat.ltb_lt; lia). exact Hj. }
  destruct (nth_error l i) as [p'|] eqn:Hp';
    [|apply nth_error_None in Hp'; lia].
  exists p'. split; [reflexivity|].
  assert (p' <> p) as Hne.
  { intros ->. assert (i = k); [|lia].
    apply (proj1 (NoDup_nth_error l) Hnd); [lia | congruence]. }
  split; [exact Hne|].
  assert (Z.of_nat i < Py.len l) as Hrow' by (unfold Py.len; lia).
  destruct (@remove_selected_playlist i [] (View.app v) Hrow') as (Hpop & _).
  fold l in Hpop. destruct (@pop_splits _ _ _ _ Hp' Hpop) as (Hl & Hl').
  cbn [View.remove_selected View.app View._filter_playlist].
  rewrite Hl'. split.
  - rewrite Hl in Hnd. apply NoDup_remove_2 in Hnd. exact Hnd.
  - assert (In p l) as Hin by (eapply nth_error_In; eauto).
    rewrite Hl in Hin. apply in_app_or in Hin as [Hin|[Hin|Hin]].
    + apply in_or_app. left. exact Hin.
    + congruence.
    + apply in_or_app. right. exact Hin.
Qed.

End ViewFacts.

Lemma searching_b_reached : View.reached (fun p => p) (fun p => p) View.searching_b.
Proof.
  eapply View.reached_move; [eapply View.reached_move; [apply View.reached_start|]|].
  - apply (View.m_add (fun p => p) (fun p => p) ["a.mp3"; "b.mp3"; "bb.mp3"]).
  - apply (View.m_search (fun p => p) (fun p => p) "b").
Qed.

Lemma remove_selected_never_raises_witness :
  View.rows View.searching_b = ["b.mp3"; "bb.mp3"] /\
  exists s', remove_selected [1%nat] (View.app View.searching_b) = Ok s'.
Proof.
  split; [vm_compute; reflexivity|].
  apply (@remove_selected_never_raises (fun p => p) (fun p => p)
           View.searching_b [1%nat]).
  - exact searching_b_reached.
  - intros i [<-|[]]. vm_compute. lia.
Defined.

Lemma unfiltered_remove_takes_the_row_shown_witness :
  exists p,
    nth_error (playlist (View.app View.three)) 1 = Some p /\
    nth_error (View.rows View.three) 1 = Some p /\
    ~ In p (playlist (View.app (View.remove_selected [1%nat] View.three))) /\
    View.in_step (fun p => p) (View.remove_selected [1%nat] View.three).
Proof.
  apply (proj2 (proj2 (@unfiltered_remove_takes_the_row_shown
                         (fun p => p) (fun p => p) View.three [] 1%nat))).
  - vm_compute. reflexivity.
  - vm_compute. repeat constructor; cbn; intuition discriminate.
  - vm_compute. lia.
Defined.

Lemma filtered_remove_takes_another_track_witness :
  nth_error (View.rows View.searching_b) 0 = Some "b.mp3" /\
  exists p',
    nth_error (playlist (View.app View.three)) 0 = Some p' /\ p' <> "b.mp3" /\
    ~ In p' (playlist (View.app (View.remove_selected [0%nat] View.searching_b))) /\
    In "b.mp3" (playlist (View.app (View.remove_selected [0%nat] View.searching_b))).
Proof.
  apply (@filtered_remove_takes_another_track (fun p => p) (fun p => p)
           (View.search (fun p => p) (fun p => p) "b" View.three)
           0%nat 0%nat 1%nat "b.mp3" "a.mp3").
  - vm_compute. repeat constructor; cbn; intuition discriminate.
  - vm_compute. reflexivity.
  - vm_compute. reflexivity.
  - vm_compute. reflexivity.
  - lia.
  - vm_compute. reflexivity.
Defined.

(** ** Shuffle, stop and the ordinary tick *)

(** X22.  With shuffle on, Next never ends the playlist: whatever the
    current index and the repeat mode, it makes the drawn index current,
    an index of the playlist, and starts it; no [stop()] goes to the
    mixer and a playing player stays playing. *)
Theorem shuffle_never_stops (e : env) (s : player) :
  playlist s <> [] -> shuffle s = true ->
  next_song e s =
    start_playback e
      (set_idx s (Some (randrange e (Py.len (playlist s)) mod Py.len (playlist s)))) /\
  has_track (next_song e s) /\ went_on s (next_song e s) /\
  (playing s = true -> playing (next_song e s) = true).
Proof.
  intros Hne Hsh.
  assert (next_song e s =
          start_playback e
            (set_idx s (Some (randrange e (Py.len (playlist s))
                                mod Py.len (playlist s))))) as Hn.
  { unfold next_song. destruct (playlist s); [congruence|]. now rewrite Hsh. }
  split; [exact Hn|]. rewrite Hn.
  match goal with |- context [start_playback e ?x] => set (s0 := x) end.
  destruct (start_playback_goes_on e s0) as (Hidx & Hw & Hp & _).
  split; [|split; [apply (@went_on_same_log s s0); [reflexivity | exact Hw] | exact Hp]].
  eexists. rewrite Hidx, start_playback_playlist. split; [reflexivity|].
  cbn [playlist s0 set_idx]. apply Z.mod_pos_bound.
  destruct (playlist s) as [|p pl]; [congruence | apply nonempty_len].
Qed.

Lemma shuffle_never_stops_witness :
  has_track (next_song env0 (toggle_shuffle one_playing)) /\
  playing (next_song env0 (toggle_shuffle one_playing)) = true.
Proof.
  destruct (@shuffle_never_stops env0 (toggle_shuffle one_playing))
    as (_ & H2 & _ & H4).
  - vm_compute. discriminate.
  - vm_compute. reflexivity.
  - split; [exact H2 | apply H4; vm_compute; reflexivity].
Defined.

(** X23.  Stop keeps the current index, so Play after Stop starts the
    same track again from its beginning: when the track loads, the calls
    are [stop()], [load], [play()] and [set_volume], and the player is
    [Playing] with the index it had. *)
Theorem stop_then_play_restarts_track
  (e : env) (s : player) (k : Z) (path : string) :
  idx s = Some k -> 0 <= k -> Py.getitem (playlist s) k = Some path ->
  music_load e path = true ->
  playback_of (stop_song s) = Stopped /\
  idx (play_pause e (stop_song s)) = Some k /\
  playback_of (play_pause e (stop_song s)) = Playing /\
  issued s (play_pause e (stop_song s))
    [Stop; Load path; Play None; SetVolume (vol_var e)].
Proof.
  intros Hi Hk Hg Hl. split; [reflexivity|].
  assert (play_pause e (stop_song s) = start_playback e (stop_song s)) as ->.
  { unfold play_pause.
    cbn [playlist playing idx stop_song set_curr_lbl set_slider set_play_btn
         set_paused set_playing mixer negb].
    pose proof (getitem_lt _ Hk Hg) as Hlt.
    destruct (playlist s); [unfold Py.len in Hlt; cbn in Hlt; lia|].
    rewrite Hi. reflexivity. }
  destruct (@start_playback_loaded e (stop_song s) k path)
    as (H1 & H2 & _ & _ & _ & Hs); trivial.
  destruct Hs as (_ & Hidx & _).
  split; [rewrite Hidx; exact Hi|]. split; [exact H1|].
  unfold issued in *. rewrite H2. cbn. rewrite <- app_assoc. reflexivity.
Qed.

Lemma stop_then_play_restarts_track_witness :
  idx (play_pause env0 (stop_song second_current)) = Some 1 /\
  playback_of (play_pause env0 (stop_song second_current)) = Playing /\
  issued second_current (play_pause env0 (stop_song second_current))
    [Stop; Load "b.mp3"; Play None; SetVolume (vol_var env0)].
Proof.
  apply (@stop_then_play_restarts_track env0 second_current 1 "b.mp3").
  - vm_compute. reflexivity.
  - lia.
  - vm_compute. reflexivity.
  - vm_compute. reflexivity.
Defined.

(** X24.  A tick of a [Playing] player whose position does not count as
    the end of the track never calls the mixer: it clears the pending
    seek position, shows the position, clamped at zero, in the
    elapsed-time label, and moves the slider to position / duration * 100
    when the duration is known and leaves it otherwise.  The mixer's -1,
    as any negative position, shows as "00:00".  Index, playlist, flags
    and duration stay. *)
Theorem tick_in_mid_track (e : env) (s : player) :
  playback_of s = Playing ->
  track_ended s (clamp0 (tick_pos e s)) = false ->
  issued s (_update_loop e s) [] /\
  _manual_seek_pos (_update_loop e s) = None /\
  curr_lbl (_update_loop e s) = format_time (clamp0 (tick_pos e s)) /\
  (PrimFloat.ltb (tick_pos e s) 0%float = true ->
   curr_lbl (_update_loop e s) = "00:00") /\
  slider (_update_loop e s) =
    (if Py.positive (length s)
     then (clamp0 (tick_pos e s) / length s * 100)%float
     else slider s) /\
  idx (_update_loop e s) = idx s /\ playlist (_update_loop e s) = playlist s /\
  playback_of (_update_loop e s) = Playing /\
  length (_update_loop e s) = length s.
Proof.
  intros Hst Hte. pose proof (proj1 (Playing_flags s) Hst) as [Hp Hq].
  unfold _update_loop. rewrite Hp, Hq. cbv zeta. cbn [andb negb].
  assert (track_ended (set_manual_seek_pos s None) (clamp0 (tick_pos e s)) = false)
    as -> by exact Hte.
  cbn [length set_manual_seek_pos].
  unfold issued, playback_of.
  destruct (Py.positive (length s)); cbn; rewrite app_nil_r, Hp, Hq;
    repeat split; intros Hneg; unfold clamp0; rewrite Hneg; reflexivity.
Qed.

Lemma tick_in_mid_track_witness :
  curr_lbl (_update_loop env1 one_playing) = "00:07" /\
  slider (_update_loop env1 one_playing) = (7 / 100 * 100)%float /\
  issued one_playing (_update_loop env1 one_playing) [].
Proof.
  destruct (@tick_in_mid_track env1 one_playing)
    as (H1 & _ & H3 & _ & H5 & _).
  - vm_compute. reflexivity.
  - vm_compute. reflexivity.
  - split; [rewrite H3; vm_compute; reflexivity|].
    split; [rewrite H5; vm_compute; reflexivity | exact H1].
Defined.

(** ** Album art *)

(** X25.  The art shown for a track is its embedded picture when there
    is one.  Otherwise it comes from the first file of the folder that
    exists among cover.jpg, cover.png, folder.jpg and album.jpg, in this
    order: the files after it are never opened, so when that first file
    cannot be opened the placeholder is shown even if a later one is
    fine.  With no such file the placeholder is shown. *)
Theorem cover_comes_from_first_existing_file
  (image : Type) (fs : Art.files image) (names : list string) :
  (forall img, Art.embedded fs = Some img ->
     Art._set_art_for fs = Art._display_pil_image fs img) /\
  (Art.embedded fs = None -> Art._set_art_for fs = Art.first_cover fs Art.candidates) /\
  (forall before name after_,
     names = before ++ name :: after_ ->
     (forall n, In n before -> Art.exists_ fs n = false) ->
     Art.exists_ fs name = true ->
     Art.first_cover fs names =
       match Art.open_ fs name with
       | Some img => Art._display_pil_image fs img
       | None => Art.Placeholder
       end) /\
  ((forall n, In n names -> Art.exists_ fs n = false) ->
   Art.first_cover fs names = Art.Placeholder).
Proof.
  split; [|split; [|split]].
  - intros img H. unfold Art._set_art_for. now rewrite H.
  - intros H. unfold Art._set_art_for. now rewrite H.
  - intros before name after_ -> Hb Hn.
    induction before as [|b before IH]; cbn [app Art.first_cover].
    + now rewrite Hn.
    + rewrite (Hb b) by (left; reflexivity). apply IH.
      intros n Hin. apply Hb. right. exact Hin.
  - intros H. induction names as [|n names IH]; [reflexivity|].
    cbn [Art.first_cover]. rewrite (H n) by (left; reflexivity).
    apply IH. intros m Hm. apply H. right. exact Hm.
Qed.

Lemma cover_comes_from_first_existing_file_witness :
  Art._set_art_for Art.damaged_cover = Art.Placeholder /\
  Art.open_ Art.damaged_cover "folder.jpg" = Some "folder".
Proof.
  split; [|reflexivity].
  destruct (@cover_comes_from_first_existing_file string Art.damaged_cover
              Art.candidates) as (_ & Hnone & Hfirst & _).
  rewrite Hnone by reflexivity.
  rewrite (Hfirst [] "cover.jpg" ["cover.png"; "folder.jpg"; "album.jpg"]).
  - reflexivity.
  - reflexivity.
  - intros n [].
  - reflexivity.
Defined.
